(** * to-do-lit: the [my-element] to-do list component

    A shallow embedding of [my-element.ts]: the [TodoItem] records, the
    three handlers ([_handleAddTodo], [_handleCheckedTodo],
    [_handleDeleteTodo]), the field initializer that reads [localStorage],
    the [debounce] wrapper with the browser's timers, and the sort performed
    by [render].  The browser primitives the component calls
    ([JSON.stringify], [JSON.parse], [localStorage], [crypto.randomUUID],
    [setTimeout]/[clearTimeout], [Array.prototype.sort]) are modelled next to
    the code that uses them. *)

From Stdlib Require Import NArith ZArith List Lia String Ascii Permutation.
From stdpp Require Import base option list numbers gmap.

Set Default Proof Using "Type".

(** ** JavaScript strings

    A JavaScript string is a sequence of UTF-16 code units. *)

Abbreviation jsstring := (list N).

(** The code units of a string of ASCII characters. *)
Definition js (s : string) : jsstring :=
  List.map (fun a => N.of_nat (nat_of_ascii a)) (list_ascii_of_string s).

(** Code units that occur as literals below:
    8 backspace, 9 tab, 10 line feed, 12 form feed, 13 carriage return,
    32 space, 34 double quote, 43 plus, 44 comma, 45 minus, 46 dot, 47 slash,
    48..57 the digits, 58 colon, 65..70 A..F, 69 E, 91 and 93 the square
    brackets, 92 backslash, 97..102 a..f, 98 b, 101 e, 102 f, 110 n, 114 r,
    116 t, 117 u, 123 and 125 the braces. *)

(** ** The [JSON] object *)

Module JSON.
Local Open Scope N_scope.

Definition text_null : jsstring := Eval cbv in js "null".
Definition text_true : jsstring := Eval cbv in js "true".
Definition text_false : jsstring := Eval cbv in js "false".
Definition text_empty_array : jsstring := Eval cbv in js "[]".

(** JSON values, as [JSON.parse] builds them. *)

#[warnings="-register-all"]
Inductive json : Type :=
  | JNull
  | JBool (b : bool)
  | JNum (lexeme : jsstring)   (* the numeric literal, kept unevaluated *)
  | JStr (s : jsstring)
  | JArr (elems : list json)
  | JObj (members : list (jsstring * json)).

(** [JSON.stringify]: QuoteJSONString. *)

Definition hex_digit (d : N) : N :=
  if d <? 10 then 48 + d else 87 + d.

(** [\uXXXX] with four lowercase hexadecimal digits. *)
Definition unicode_escape (c : N) : jsstring :=
  [92; 117; hex_digit (c / 4096 mod 16); hex_digit (c / 256 mod 16);
   hex_digit (c / 16 mod 16); hex_digit (c mod 16)].

Definition is_lead (c : N) : bool := (55296 <=? c) && (c <=? 56319).
Definition is_trail (c : N) : bool := (56320 <=? c) && (c <=? 57343).

(** One code unit that is not the first half of a surrogate pair. *)
Definition quote_unit (c : N) : jsstring :=
  if c =? 8 then [92; 98]            (* backslash b *)
  else if c =? 9 then [92; 116]      (* backslash t *)
  else if c =? 10 then [92; 110]     (* backslash n *)
  else if c =? 12 then [92; 102]     (* backslash f *)
  else if c =? 13 then [92; 114]     (* backslash r *)
  else if c =? 34 then [92; 34]      (* backslash, double quote *)
  else if c =? 92 then [92; 92]      (* backslash, backslash *)
  else if (c <? 32) || is_lead c || is_trail c then unicode_escape c
  else [c].

Fixpoint quote_body (s : jsstring) : jsstring :=
  match s with
  | [] => []
  | c :: s' =>
      if is_lead c then
        match s' with
        | d :: s'' =>
            if is_trail d then c :: d :: quote_body s''
            else unicode_escape c ++ quote_body s'
        | [] => unicode_escape c
        end
      else quote_unit c ++ quote_body s'
  end.

Definition QuoteJSONString (s : jsstring) : jsstring :=
  34 :: quote_body s ++ [34].

(** [JSON.stringify]: SerializeJSONProperty, without indentation. *)

Definition join_comma (parts : list jsstring) : jsstring :=
  match parts with
  | [] => []
  | p :: ps => p ++ concat (List.map (fun q => 44 :: q) ps)
  end.

Fixpoint stringify (v : json) : jsstring :=
  match v with
  | JNull => text_null
  | JBool true => text_true
  | JBool false => text_false
  | JNum n => n
  | JStr s => QuoteJSONString s
  | JArr vs => 91 :: join_comma (List.map stringify vs) ++ [93]
  | JObj ms =>
      123 :: join_comma
               (List.map (fun kv => QuoteJSONString (fst kv) ++ 58 :: stringify (snd kv)) ms)
          ++ [125]
  end.

(** [JSON.parse]. *)

Definition is_ws (c : N) : bool :=
  (c =? 32) || (c =? 9) || (c =? 10) || (c =? 13).

Fixpoint skip_ws (l : jsstring) : jsstring :=
  match l with
  | c :: l' => if is_ws c then skip_ws l' else l
  | [] => []
  end.

Definition unhex (c : N) : option N :=
  if (48 <=? c) && (c <=? 57) then Some (c - 48)
  else if (97 <=? c) && (c <=? 102) then Some (c - 87)
  else if (65 <=? c) && (c <=? 70) then Some (c - 55)
  else None.

Definition unhex4 (h1 h2 h3 h4 : N) : option N :=
  match unhex h1, unhex h2, unhex h3, unhex h4 with
  | Some a, Some b, Some c, Some d => Some (a * 4096 + b * 256 + c * 16 + d)
  | _, _, _, _ => None
  end.

Definition simple_escape (e : N) : option N :=
  if e =? 34 then Some 34
  else if e =? 92 then Some 92
  else if e =? 47 then Some 47
  else if e =? 98 then Some 8
  else if e =? 102 then Some 12
  else if e =? 110 then Some 10
  else if e =? 114 then Some 13
  else if e =? 116 then Some 9
  else None.

Definition push (c : N) (r : option (jsstring * jsstring)) : option (jsstring * jsstring) :=
  match r with
  | Some (s, rest) => Some (c :: s, rest)
  | None => None
  end.

(** The characters of a string literal, after its opening quote. *)
Fixpoint parse_string_body (l : jsstring) : option (jsstring * jsstring) :=
  match l with
  | [] => None
  | c :: l' =>
      if c =? 34 then Some ([], l')
      else if c =? 92 then
        match l' with
        | [] => None
        | e :: l'' =>
            if e =? 117 then
              match l'' with
              | h1 :: h2 :: h3 :: h4 :: l4 =>
                  match unhex4 h1 h2 h3 h4 with
                  | Some u => push u (parse_string_body l4)
                  | None => None
                  end
              | _ => None
              end
            else
              match simple_escape e with
              | Some u => push u (parse_string_body l'')
              | None => None
              end
        end
      else if c <? 32 then None
      else push c (parse_string_body l')
  end.

Definition is_digit (c : N) : bool := (48 <=? c) && (c <=? 57).

Fixpoint take_digits (l : jsstring) : jsstring * jsstring :=
  match l with
  | c :: l' =>
      if is_digit c then let '(ds, r) := take_digits l' in (c :: ds, r)
      else ([], l)
  | [] => ([], [])
  end.

(** A numeric literal: an optional minus sign; then a single 0, or a digit
    1..9 followed by any digits; then optionally a dot and at least one
    digit; then optionally e or E, an optional sign and at least one digit. *)
Definition parse_number (l : jsstring) : option (jsstring * jsstring) :=
  let '(sign, l1) :=
    match l with
    | c :: l' => if c =? 45 then ([45], l') else ([], l)
    | [] => ([], l)
    end in
  let int_part :=
    match l1 with
    | c :: l' =>
        if c =? 48 then Some ([48], l')
        else if is_digit c then let '(ds, r) := take_digits l' in Some (c :: ds, r)
        else None
    | [] => None
    end in
  match int_part with
  | None => None
  | Some (ip, l2) =>
      let frac :=
        match l2 with
        | c :: l' =>
            if c =? 46 then
              match take_digits l' with
              | ([], _) => None
              | (ds, r) => Some (46 :: ds, r)
              end
            else Some ([], l2)
        | [] => Some ([], l2)
        end in
      match frac with
      | None => None
      | Some (fp, l3) =>
          let expo :=
            match l3 with
            | c :: l' =>
                if (c =? 101) || (c =? 69) then
                  let '(sg, l'') :=
                    match l' with
                    | d :: r => if (d =? 43) || (d =? 45) then ([d], r) else ([], l')
                    | [] => ([], l')
                    end in
                  match take_digits l'' with
                  | ([], _) => None
                  | (ds, r) => Some (c :: sg ++ ds, r)
                  end
                else Some ([], l3)
            | [] => Some ([], l3)
            end in
          match expo with
          | None => None
          | Some (ep, l4) => Some (sign ++ ip ++ fp ++ ep, l4)
          end
      end
  end.

Fixpoint strip_prefix (p l : jsstring) : option jsstring :=
  match p, l with
  | [], _ => Some l
  | a :: p', b :: l' => if a =? b then strip_prefix p' l' else None
  | _ :: _, [] => None
  end.

(** Skip white space, then read the character [c]. *)
Definition expect (c : N) (l : jsstring) : option jsstring :=
  match skip_ws l with
  | c' :: r => if c' =? c then Some r else None
  | [] => None
  end.

(** Recursive descent over the text.  Every call reads at least one
    character; [fuel] bounds the depth of the calls. *)
Fixpoint parse_value (fuel : nat) (l : jsstring) : option (json * jsstring) :=
  match fuel with
  | O => None
  | S f =>
      match skip_ws l with
      | [] => None
      | c :: r =>
          if c =? 34 then
            match parse_string_body r with
            | Some (s, r') => Some (JStr s, r')
            | None => None
            end
          else if c =? 91 then
            match expect 93 r with
            | Some r' => Some (JArr [], r')
            | None =>
                match parse_elements f r with
                | Some (vs, r') => Some (JArr vs, r')
                | None => None
                end
            end
          else if c =? 123 then
            match expect 125 r with
            | Some r' => Some (JObj [], r')
            | None =>
                match parse_members f r with
                | Some (ms, r') => Some (JObj ms, r')
                | None => None
                end
            end
          else if c =? 116 then
            match strip_prefix text_true (c :: r) with
            | Some r' => Some (JBool true, r')
            | None => None
            end
          else if c =? 102 then
            match strip_prefix text_false (c :: r) with
            | Some r' => Some (JBool false, r')
            | None => None
            end
          else if c =? 110 then
            match strip_prefix text_null (c :: r) with
            | Some r' => Some (JNull, r')
            | None => None
            end
          else
            match parse_number (c :: r) with
            | Some (n, r') => Some (JNum n, r')
            | None => None
            end
      end
  end

(** The elements of an array and its closing bracket. *)
with parse_elements (fuel : nat) (l : jsstring) : option (list json * jsstring) :=
  match fuel with
  | O => None
  | S f =>
      match parse_value f l with
      | None => None
      | Some (v, r) =>
          match expect 44 r with
          | Some r' =>
              match parse_elements f r' with
              | Some (vs, r'') => Some (v :: vs, r'')
              | None => None
              end
          | None =>
              match expect 93 r with
              | Some r' => Some ([v], r')
              | None => None
              end
          end
      end
  end

(** The members of an object and its closing brace. *)
with parse_members (fuel : nat) (l : jsstring) : option (list (jsstring * json) * jsstring) :=
  match fuel with
  | O => None
  | S f =>
      match expect 34 l with
      | None => None
      | Some r =>
          match parse_string_body r with
          | None => None
          | Some (k, r1) =>
              match expect 58 r1 with
              | None => None
              | Some r2 =>
                  match parse_value f r2 with
                  | None => None
                  | Some (v, r3) =>
                      match expect 44 r3 with
                      | Some r4 =>
                          match parse_members f r4 with
                          | Some (ms, r5) => Some ((k, v) :: ms, r5)
                          | None => None
                          end
                      | None =>
                          match expect 125 r3 with
                          | Some r4 => Some ([(k, v)], r4)
                          | None => None
                          end
                      end
                  end
              end
          end
      end
  end.

Definition fuel_for (text : jsstring) : nat := 2 * length text + 2.

(** [JSON.parse text]: the parsed value, or [None] when the text is not
    JSON and [JSON.parse] throws a SyntaxError. *)
Definition parse (text : jsstring) : option json :=
  match parse_value (fuel_for text) text with
  | Some (v, r) =>
      match skip_ws r with
      | [] => Some v
      | _ :: _ => None
      end
  | None => None
  end.

End JSON.

(** ** The data model: [interface TodoItem] *)

Record TodoItem : Type := {
  title : jsstring;
  completed : bool;
  id : jsstring;
}.

Definition key_title : jsstring := Eval cbv in js "title".
Definition key_completed : jsstring := Eval cbv in js "completed".
Definition key_id : jsstring := Eval cbv in js "id".

(** The object a [TodoItem] is at run time, with its properties in the order
    the component writes them. *)
Definition to_json (item : TodoItem) : JSON.json :=
  JSON.JObj [(key_title, JSON.JStr (title item));
             (key_completed, JSON.JBool (completed item));
             (key_id, JSON.JStr (id item))].

Definition list_to_json (l : list TodoItem) : JSON.json :=
  JSON.JArr (List.map to_json l).

(** ** The browser: [localStorage], [crypto.randomUUID], timers *)

(** The callbacks given to [setTimeout].  The component registers only
    [() => func.apply(this, args)], with [func] the arrow function
    [(id) => { this._handleCheckedTodo(id) }] and [args] the id. *)
Inductive Callback : Type :=
  | CheckTodo (i : jsstring).

Record Timer : Type := {
  handle : nat;
  due : nat;           (* the time, in ms, at which the timer fires *)
  callback : Callback;
}.

Record Window : Type := {
  localStorage : gmap jsstring jsstring;
  uuid_supply : nat -> jsstring;   (* what [crypto.randomUUID] returns, call after call *)
  uuid_count : nat;                (* how many calls were made *)
  now : nat;                       (* the clock, in ms *)
  timers : list Timer;             (* pending timers, oldest first *)
  next_handle : nat;
}.

Definition with_localStorage (m : gmap jsstring jsstring) (w : Window) : Window :=
  {| localStorage := m;
     uuid_supply := uuid_supply w; uuid_count := uuid_count w;
     now := now w; timers := timers w; next_handle := next_handle w |}.

Definition with_uuid_count (n : nat) (w : Window) : Window :=
  {| localStorage := localStorage w;
     uuid_supply := uuid_supply w; uuid_count := n;
     now := now w; timers := timers w; next_handle := next_handle w |}.

Definition with_now (t : nat) (w : Window) : Window :=
  {| localStorage := localStorage w;
     uuid_supply := uuid_supply w; uuid_count := uuid_count w;
     now := t; timers := timers w; next_handle := next_handle w |}.

Definition with_timers (ts : list Timer) (w : Window) : Window :=
  {| localStorage := localStorage w;
     uuid_supply := uuid_supply w; uuid_count := uuid_count w;
     now := now w; timers := ts; next_handle := next_handle w |}.

Definition with_next_handle (h : nat) (w : Window) : Window :=
  {| localStorage := localStorage w;
     uuid_supply := uuid_supply w; uuid_count := uuid_count w;
     now := now w; timers := timers w; next_handle := h |}.

(** [localStorage.getItem(key)]; [None] is [null]. *)
Definition getItem (key : jsstring) (w : Window) : option jsstring :=
  localStorage w !! key.

Definition setItem (key value : jsstring) (w : Window) : Window :=
  with_localStorage (<[key := value]> (localStorage w)) w.

Definition randomUUID (w : Window) : jsstring * Window :=
  (uuid_supply w (uuid_count w), with_uuid_count (S (uuid_count w)) w).

Definition setTimeout (cb : Callback) (wait : nat) (w : Window) : nat * Window :=
  let tm := {| handle := next_handle w; due := now w + wait; callback := cb |} in
  (next_handle w, with_next_handle (S (next_handle w)) (with_timers (timers w ++ [tm]) w)).

(** [clearTimeout(undefined)] and [clearTimeout] of a timer that has fired
    do nothing. *)
Definition clearTimeout (h : option nat) (w : Window) : Window :=
  match h with
  | None => w
  | Some n => with_timers (List.filter (fun t => negb (Nat.eqb (handle t) n)) (timers w)) w
  end.

(** ** The component *)

Record MyElement : Type := {
  _list : list TodoItem;
  _todoInput : jsstring;      (* the [value] of the text field [#todoInput] *)
  timeout : option nat;       (* the variable [timeout] of the [debounce] closure *)
}.

Definition with_list (l : list TodoItem) (e : MyElement) : MyElement :=
  {| _list := l; _todoInput := _todoInput e; timeout := timeout e |}.

Definition with_todoInput (s : jsstring) (e : MyElement) : MyElement :=
  {| _list := _list e; _todoInput := s; timeout := timeout e |}.

Definition with_timeout (h : option nat) (e : MyElement) : MyElement :=
  {| _list := _list e; _todoInput := _todoInput e; timeout := h |}.

Record Page : Type := {
  this : MyElement;
  window : Window;
}.

Definition storage_key : jsstring := Eval cbv in js "todo-list".

(** The statement every handler ends with:
    [localStorage.setItem("todo-list", JSON.stringify(this._list))]. *)
Definition save (l : list TodoItem) (w : Window) : Window :=
  setItem storage_key (JSON.stringify (list_to_json l)) w.

(** *** The initializer of [_list] *)

Inductive JSError : Type := SyntaxError | TypeError.

(** How an evaluation ends: with a value of the declared type, with an
    exception, or with a value that does not have the declared type
    ([JSON.parse] returns [any], and the initializer casts it). *)
Inductive outcome (A : Type) : Type :=
  | Returns (a : A)
  | Throws (e : JSError)
  | Untyped.
Arguments Returns {A} a.
Arguments Throws {A} e.
Arguments Untyped {A}.

(** Property lookup in a parsed object: [JSON.parse] keeps the last of
    several members with the same name. *)
Fixpoint get_prop (k : jsstring) (ms : list (jsstring * JSON.json)) : option JSON.json :=
  match ms with
  | [] => None
  | (k', v) :: ms' =>
      match get_prop k ms' with
      | Some v' => Some v'
      | None => if decide (k' = k) then Some v else None
      end
  end.

(** The parameter type of the callback, [Omit<TodoItem, "id">]: an object
    with a string [title] and a boolean [completed].  Other properties are
    not visible at that type; an [id] that was stored is overwritten. *)
Definition as_stored_item (v : JSON.json) : option (jsstring * bool) :=
  match v with
  | JSON.JObj ms =>
      match get_prop key_title ms, get_prop key_completed ms with
      | Some (JSON.JStr t), Some (JSON.JBool c) => Some (t, c)
      | _, _ => None
      end
  | _ => None
  end.

(** [.map((item) => ({ ...item, id: crypto.randomUUID() }))]: one call of
    [crypto.randomUUID] per element, in index order. *)
Fixpoint map_with_id (vs : list JSON.json) (w : Window) : outcome (list TodoItem) * Window :=
  match vs with
  | [] => (Returns [], w)
  | v :: vs' =>
      let '(uuid, w1) := randomUUID w in
      let '(rest, w2) := map_with_id vs' w1 in
      (match as_stored_item v, rest with
       | Some (t, c), Returns items =>
           Returns ({| title := t; completed := c; id := uuid |} :: items)
       | _, _ => Untyped
       end, w2)
  end.

(** [JSON.parse(localStorage.getItem("todo-list") || "[]").map(...)] *)
Definition load (w : Window) : outcome (list TodoItem) * Window :=
  let text :=
    match getItem storage_key w with
    | None => JSON.text_empty_array           (* [null || "[]"] *)
    | Some [] => JSON.text_empty_array        (* the empty string is falsy *)
    | Some (c :: s) => c :: s
    end in
  match JSON.parse text with
  | None => (Throws SyntaxError, w)
  | Some (JSON.JArr vs) => map_with_id vs w
  | Some _ => (Throws TypeError, w)    (* [.map] is not a function *)
  end.

(** [new MyElement()]: the field initializers.  The text field starts empty
    and the [debounce] closure starts with [timeout] undefined. *)
Definition construct (w : Window) : outcome Page :=
  match load w with
  | (Returns l, w') =>
      Returns {| this := {| _list := l; _todoInput := []; timeout := None |};
                 window := w' |}
  | (Throws e, _) => Throws e
  | (Untyped, _) => Untyped
  end.

(** *** The handlers *)

(** The callback of [this._list.map] in [_handleCheckedTodo]. *)
Definition toggle_item (i : jsstring) (item : TodoItem) : TodoItem :=
  if decide (id item = i) then
    {| title := title item; completed := negb (completed item); id := id item |}
  else item.

Definition _handleCheckedTodo (i : jsstring) (p : Page) : Page :=
  let newList := List.map (toggle_item i) (_list (this p)) in
  {| this := with_list newList (this p);
     window := save newList (window p) |}.

Definition _handleAddTodo (p : Page) : Page :=
  let value := _todoInput (this p) in
  match value with
  | [] => p                                   (* [if (!value) return;] *)
  | _ :: _ =>
      let '(uuid, w1) := randomUUID (window p) in
      let l := _list (this p) ++ [{| title := value; completed := false; id := uuid |}] in
      {| this := with_todoInput [] (with_list l (this p));
         window := save l w1 |}
  end.

Definition _handleDeleteTodo (i : jsstring) (p : Page) : Page :=
  let l := List.filter (fun item => negb (bool_decide (id item = i))) (_list (this p)) in
  {| this := with_list l (this p);
     window := save l (window p) |}.

(** *** [debounce] and [debouncedCheckTodo] *)

(** The function [debounce(func, wait)] returns, applied to [i]:
    [clearTimeout(timeout); timeout = window.setTimeout(..., wait)]. *)
Definition debounce (func : jsstring -> Callback) (wait : nat)
    (i : jsstring) (p : Page) : Page :=
  let w1 := clearTimeout (timeout (this p)) (window p) in
  let '(h, w2) := setTimeout (func i) wait w1 in
  {| this := with_timeout (Some h) (this p);
     window := w2 |}.

Definition wait_ms : nat := 300.

Definition debouncedCheckTodo : jsstring -> Page -> Page :=
  debounce CheckTodo wait_ms.

(** What a callback does when its timer fires. *)
Definition invoke (cb : Callback) (p : Page) : Page :=
  match cb with
  | CheckTodo i => _handleCheckedTodo i p
  end.

(** *** The event loop *)

Definition is_due (t : nat) (tm : Timer) : bool := Nat.leb (due tm) t.

(** The timers that are due fire, oldest first; each is removed and its
    callback runs. *)
Definition run_due (p : Page) : Page :=
  let w := window p in
  let fired := List.filter (is_due (now w)) (timers w) in
  let pending := List.filter (fun tm => negb (is_due (now w) tm)) (timers w) in
  fold_left (fun q tm => invoke (callback tm) q) fired
            {| this := this p; window := with_timers pending w |}.

(** One millisecond passes. *)
Definition tick (p : Page) : Page :=
  run_due {| this := this p; window := with_now (S (now (window p))) (window p) |}.

Fixpoint elapse (ms : nat) (p : Page) : Page :=
  match ms with
  | O => p
  | S n => elapse n (tick p)
  end.

Inductive event : Type :=
  | Type_text (s : jsstring)      (* the user edits the text field *)
  | Click_add                     (* [@click] of the Add button *)
  | Change (i : jsstring)         (* [@change] of the checkbox of item [i] *)
  | Click_delete (i : jsstring)   (* [@click] of the delete button of item [i] *)
  | Wait (ms : nat).              (* nothing happens for [ms] milliseconds *)

Definition step (p : Page) (e : event) : Page :=
  match e with
  | Type_text s => {| this := with_todoInput s (this p); window := window p |}
  | Click_add => _handleAddTodo p
  | Change i => debouncedCheckTodo i p
  | Click_delete i => _handleDeleteTodo i p
  | Wait ms => elapse ms p
  end.

Definition run (p : Page) (es : list event) : Page := fold_left step es p.

(** *** [render]: the sorted copy *)

(** [Array.prototype.sort] is stable.  It is modelled by insertion sort:
    an element goes to the front of the sorted rest and then moves past
    exactly the elements it compares greater than, so elements that compare
    equal keep their order. *)
Section Sort.
Context {A : Type} (cmp : A -> A -> Z).

Fixpoint sort_insert (x : A) (l : list A) : list A :=
  match l with
  | [] => [x]
  | y :: l' => if (0 <? cmp x y)%Z then y :: sort_insert x l' else x :: y :: l'
  end.

Fixpoint sorted (l : list A) : list A :=
  match l with
  | [] => []
  | x :: l' => sort_insert x (sorted l')
  end.
End Sort.

(** The arrays [render] works on, by reference: [sort] sorts in place and
    returns the array it was called on. *)
Module Arrays.
Definition store (A : Type) : Type := list (list A).
Definition ref : Type := nat.

Definition read {A} (r : ref) (st : store A) : list A :=
  default [] (st !! r).

(** [[...a]]: a new array with the elements of [a]. *)
Definition spread {A} (r : ref) (st : store A) : ref * store A :=
  (length st, st ++ [read r st]).

Definition sort {A} (cmp : A -> A -> Z) (r : ref) (st : store A) : ref * store A :=
  (r, <[r := sorted cmp (read r st)]> st).
End Arrays.

(** The comparator of [render]. *)
Definition by_completed (a b : TodoItem) : Z :=
  if Bool.eqb (completed a) (completed b) then 0%Z
  else if completed a then 1%Z else (-1)%Z.

(** [render] up to the template: [sortedList], and the component afterwards.
    The array [this._list] is reference 0 of the store. *)
Definition render (p : Page) : list TodoItem * Page :=
  let st0 : Arrays.store TodoItem := [_list (this p)] in
  let '(copy, st1) := Arrays.spread 0 st0 in
  let '(sortedList, st2) := Arrays.sort by_completed copy st1 in
  (Arrays.read sortedList st2,
   {| this := with_list (Arrays.read 0 st2) (this p); window := window p |}).

(** ** A concrete browser, for the examples *)

Definition demo_uuid (n : nat) : jsstring :=
  js "uuid-" ++ [N.of_nat n + 97]%N.

Definition fresh_window : Window :=
  {| localStorage := ∅; uuid_supply := demo_uuid; uuid_count := 0;
     now := 0; timers := []; next_handle := 1 |}.

Definition empty_page : Page :=
  {| this := {| _list := []; _todoInput := []; timeout := None |};
     window := fresh_window |}.

Definition milk : TodoItem :=
  {| title := js "Buy milk"; completed := false; id := demo_uuid 0 |}.
Definition dog : TodoItem :=
  {| title := js "Walk dog"; completed := false; id := demo_uuid 1 |}.

(** Two tasks, added through the text field. *)
Definition two_tasks : Page :=
  run empty_page [Type_text (js "Buy milk"); Click_add; Type_text (js "Walk dog"); Click_add].

(** A list that breaks the uniqueness of ids: the first and the last task
    have the same id. *)
Definition milk_again : TodoItem :=
  {| title := js "Milk again"; completed := true; id := demo_uuid 0 |}.

Definition shared_id_page : Page :=
  {| this := {| _list := [milk; dog; milk_again]; _todoInput := []; timeout := None |};
     window := fresh_window |}.

(** ** Bursts of toggle requests *)

(** The requests that follow the first one of a burst: each comes [gap]
    milliseconds after the one before. *)
Fixpoint burst (more : list (nat * jsstring)) : list event :=
  match more with
  | [] => []
  | (gap, i) :: more' => Wait gap :: Change i :: burst more'
  end.

(** The id of the last request of a burst. *)
Fixpoint last_id (first : jsstring) (more : list (nat * jsstring)) : jsstring :=
  match more with
  | [] => first
  | (_, i) :: more' => last_id i more'
  end.

(** The only timer that can be pending is the one the [debounce] closure
    remembers in [timeout]. *)
Definition only_debounce_timer (p : Page) : Prop :=
  timers (window p) = []
  \/ exists tm, timers (window p) = [tm] /\ timeout (this p) = Some (handle tm).

(** The timer of the closure is pending, for argument [i], and fires in
    [s] milliseconds. *)
Definition armed (s : nat) (i : jsstring) (p : Page) : Prop :=
  exists h, timeout (this p) = Some h
            /\ timers (window p)
               = [{| handle := h; due := now (window p) + s; callback := CheckTodo i |}].

(** What the handlers read and write: the list, the text field, the storage
    and the state of the id generator. *)
Definition content (p : Page)
  : list TodoItem * jsstring * gmap jsstring jsstring * nat :=
  (_list (this p), _todoInput (this p), localStorage (window p), uuid_count (window p)).

(** What the timers of the page read and write. *)
Definition timing (p : Page) : list Timer * option nat :=
  (timers (window p), timeout (this p)).

(** What the invariant of the ids reads of a page. *)
Definition keying (p : Page) : list TodoItem * (nat -> jsstring) * nat :=
  (_list (this p), uuid_supply (window p), uuid_count (window p)).

(** The items of [l], renumbered with the ids [supply n], [supply (n+1)], ... *)
Fixpoint with_ids (supply : nat -> jsstring) (n : nat) (l : list TodoItem) : list TodoItem :=
  match l with
  | [] => []
  | item :: l' =>
      {| title := title item; completed := completed item; id := supply n |}
        :: with_ids supply (S n) l'
  end.

(** The item [_handleCheckedTodo] puts in the place of a matching [item]. *)
Definition flipped (item : TodoItem) : TodoItem :=
  {| title := title item; completed := negb (completed item); id := id item |}.

Definition has_id (i : jsstring) (item : TodoItem) : bool := bool_decide (id item = i).

(** Every id in the list is a value [crypto.randomUUID] has returned. *)
Definition ids_drawn (p : Page) : Prop :=
  Forall (fun item => exists k, k < uuid_count (window p)
                                /\ id item = uuid_supply (window p) k)
         (_list (this p)).

(** [crypto.randomUUID] never returns the same value twice. *)
Definition never_repeats (w : Window) : Prop :=
  forall j k, uuid_supply w j = uuid_supply w k -> j = k.

(** The invariant of the data model: the ids in the list are distinct
    values of a generator that never repeats. *)
Definition well_keyed (p : Page) : Prop :=
  never_repeats (window p) /\ ids_drawn p /\ NoDup (List.map id (_list (this p))).

(** ** Notions for the properties of sequences of events *)

Definition nonempty (s : jsstring) : bool :=
  match s with
  | [] => false
  | _ :: _ => true
  end.

(** The user types each title in turn and clicks Add after each. *)
Fixpoint add_all (ts : list jsstring) : list event :=
  match ts with
  | [] => []
  | t :: ts' => Type_text t :: Click_add :: add_all ts'
  end.

(** What a task shows: its title and whether it is completed. *)
Definition shown_tasks (l : list TodoItem) : list (jsstring * bool) :=
  List.map (fun item => (title item, completed item)) l.

(** What identifies a task: its id and its title. *)
Definition identities (l : list TodoItem) : list (jsstring * jsstring) :=
  List.map (fun item => (id item, title item)) l.

(** Opening the page again on the storage of [p] shows the tasks of [p]. *)
Definition reload_agrees (p : Page) : Prop :=
  exists l, fst (load (window p)) = Returns l
            /\ shown_tasks l = shown_tasks (_list (this p)).


Definition is_add (e : event) : bool :=
  match e with
  | Click_add => true
  | _ => false
  end.


(** Toggle requests, each followed by a pause. *)
Fixpoint spaced (reqs : list (jsstring * nat)) : list event :=
  match reqs with
  | [] => []
  | (i, d) :: reqs' => Change i :: Wait d :: spaced reqs'
  end.

(** The toggles of [reqs] applied one after the other. *)
Definition toggle_each (reqs : list (jsstring * nat)) (p : Page) : Page :=
  fold_left (fun q r => _handleCheckedTodo (fst r) q) reqs p.

(** * Properties *)

(** ** [JSON.parse] reads back what [JSON.stringify] writes *)

Section JSON_roundtrip.
Import JSON.
Local Open Scope N_scope.

Lemma unhex_hex_digit d : d < 16 -> unhex (hex_digit d) = Some d.
Proof.
  intros Hd. unfold unhex, hex_digit.
  destruct (N.ltb_spec d 10).
  - replace ((48 <=? 48 + d) && (48 + d <=? 57))%bool with true.
    + f_equal. lia.
    + symmetry. apply andb_true_intro. split; apply N.leb_le; lia.
  - replace ((48 <=? 87 + d) && (87 + d <=? 57))%bool with false.
    + replace ((97 <=? 87 + d) && (87 + d <=? 102))%bool with true.
      * f_equal. lia.
      * symmetry. apply andb_true_intro. split; apply N.leb_le; lia.
    + symmetry. apply andb_false_intro2. apply N.leb_gt. lia.
Qed.

Lemma hex_split c :
  c < 65536 ->
  c / 4096 mod 16 * 4096 + c / 256 mod 16 * 256 + c / 16 mod 16 * 16 + c mod 16 = c.
Proof. intros Hc. zify. Z.to_euclidean_division_equations. lia. Qed.

Lemma parse_unicode_escape c tail :
  c < 65536 ->
  parse_string_body (unicode_escape c ++ tail) = push c (parse_string_body tail).
Proof.
  intros Hc. unfold unicode_escape.
  change (parse_string_body (?a ++ tail)) with
    (match unhex4 (hex_digit (c / 4096 mod 16)) (hex_digit (c / 256 mod 16))
                  (hex_digit (c / 16 mod 16)) (hex_digit (c mod 16)) with
     | Some u => push u (parse_string_body tail)
     | None => None
     end).
  unfold unhex4.
  rewrite !unhex_hex_digit by (apply N.mod_lt; discriminate).
  by rewrite hex_split.
Qed.

Lemma parse_literal_unit c tail :
  32 <= c -> c <> 34 -> c <> 92 ->
  parse_string_body (c :: tail) = push c (parse_string_body tail).
Proof.
  intros H32 H34 H92. simpl.
  destruct (N.eqb_spec c 34); [done|].
  destruct (N.eqb_spec c 92); [done|].
  destruct (N.ltb_spec c 32); [lia|done].
Qed.

Lemma is_lead_range c : is_lead c = true <-> 55296 <= c <= 56319.
Proof. unfold is_lead. rewrite andb_true_iff, !N.leb_le. tauto. Qed.

Lemma is_trail_range c : is_trail c = true <-> 56320 <= c <= 57343.
Proof. unfold is_trail. rewrite andb_true_iff, !N.leb_le. tauto. Qed.

Lemma parse_quote_unit c tail :
  is_lead c = false ->
  parse_string_body (quote_unit c ++ tail) = push c (parse_string_body tail).
Proof.
  intros Hlead. unfold quote_unit.
  destruct (N.eqb_spec c 8) as [->|?]; [reflexivity|].
  destruct (N.eqb_spec c 9) as [->|?]; [reflexivity|].
  destruct (N.eqb_spec c 10) as [->|?]; [reflexivity|].
  destruct (N.eqb_spec c 12) as [->|?]; [reflexivity|].
  destruct (N.eqb_spec c 13) as [->|?]; [reflexivity|].
  destruct (N.eqb_spec c 34) as [->|?]; [reflexivity|].
  destruct (N.eqb_spec c 92) as [->|?]; [reflexivity|].
  rewrite Hlead, orb_false_r.
  destruct (N.ltb_spec c 32).
  - apply parse_unicode_escape. lia.
  - destruct (is_trail c) eqn:Htrail; simpl.
    + apply parse_unicode_escape. apply is_trail_range in Htrail. lia.
    + by apply parse_literal_unit.
Qed.

Lemma quote_body_cons c s :
  quote_body (c :: s) =
  if is_lead c then
    match s with
    | d :: s' =>
        if is_trail d then c :: d :: quote_body s'
        else unicode_escape c ++ quote_body s
    | [] => unicode_escape c
    end
  else quote_unit c ++ quote_body s.
Proof. reflexivity. Qed.

Lemma parse_quote_body_le n : forall s rest,
  (length s <= n)%nat ->
  parse_string_body (quote_body s ++ 34 :: rest) = Some (s, rest).
Proof.
  induction n as [|n IH]; intros [|c s] rest Hlen; simpl in Hlen; try lia;
    try reflexivity.
  rewrite quote_body_cons. destruct (is_lead c) eqn:Hlead.
  - apply is_lead_range in Hlead.
    destruct s as [|d s].
    + rewrite parse_unicode_escape by lia. reflexivity.
    + destruct (is_trail d) eqn:Htrail.
      * apply is_trail_range in Htrail.
        rewrite <- !app_comm_cons.
        rewrite parse_literal_unit by lia.
        rewrite parse_literal_unit by lia.
        rewrite IH by (simpl in Hlen; lia). reflexivity.
      * rewrite <- app_assoc, parse_unicode_escape by lia.
        rewrite IH by lia. reflexivity.
  - rewrite <- app_assoc, parse_quote_unit by done.
    rewrite IH by lia. reflexivity.
Qed.

(** A quoted string parses back to the string. *)
Lemma parse_quote_body s rest :
  parse_string_body (quote_body s ++ 34 :: rest) = Some (s, rest).
Proof. by apply (parse_quote_body_le (length s)). Qed.

(** The text of one item, as [JSON.stringify] writes it. *)
Lemma stringify_item it rest :
  stringify (to_json it) ++ rest =
  123 :: 34 :: key_title ++ 34 :: 58 :: 34 :: quote_body (title it) ++
  34 :: 44 :: 34 :: key_completed ++ 34 :: 58 ::
  (if completed it then text_true else text_false) ++
  44 :: 34 :: key_id ++ 34 :: 58 :: 34 :: quote_body (id it) ++ 34 :: 125 :: rest.
Proof.
  unfold to_json. destruct it as [t c i]. simpl title; simpl completed; simpl id.
  cbn [stringify List.map join_comma concat fst snd]. unfold QuoteJSONString.
  change (quote_body key_title) with key_title.
  change (quote_body key_completed) with key_completed.
  change (quote_body key_id) with key_id.
  destruct c; repeat (rewrite <- app_assoc || rewrite <- app_comm_cons);
    reflexivity.
Qed.

Lemma parse_item it rest f :
  parse_value (5 + f) (stringify (to_json it) ++ rest) = Some (to_json it, rest).
Proof.
  rewrite stringify_item. destruct it as [t c i]. simpl title; simpl completed; simpl id.
  destruct c; cbn; rewrite parse_quote_body; cbn; rewrite parse_quote_body;
    reflexivity.
Qed.

Lemma parse_elements_S f l :
  parse_elements (S f) l =
  match parse_value f l with
  | None => None
  | Some (v, r) =>
      match expect 44 r with
      | Some r' =>
          match parse_elements f r' with
          | Some (vs, r'') => Some (v :: vs, r'')
          | None => None
          end
      | None =>
          match expect 93 r with
          | Some r' => Some ([v], r')
          | None => None
          end
      end
  end.
Proof. reflexivity. Qed.

Lemma expect_comma r : expect 44 (44 :: r) = Some r.
Proof. reflexivity. Qed.

Lemma join_comma_cons (a b : jsstring) l :
  join_comma (a :: b :: l) = a ++ 44 :: join_comma (b :: l).
Proof. reflexivity. Qed.

Lemma parse_items it l rest f :
  parse_elements (6 + length l + f)
    (join_comma (List.map stringify (List.map to_json (it :: l))) ++ 93 :: rest)
  = Some (List.map to_json (it :: l), rest).
Proof.
  revert it f. induction l as [|it' l IH]; intros it f.
  - cbn [List.map join_comma concat length]. rewrite app_nil_r.
    change (6 + 0 + f)%nat with (S (5 + f)).
    rewrite parse_elements_S, parse_item. reflexivity.
  - change (6 + length (it' :: l) + f)%nat with (S (6 + length l + f)).
    rewrite parse_elements_S.
    rewrite (List.map_cons to_json it), (List.map_cons stringify (to_json it)).
    rewrite (List.map_cons to_json it'), (List.map_cons stringify (to_json it')).
    rewrite join_comma_cons.
    rewrite <- (List.map_cons stringify (to_json it')), <- (List.map_cons to_json it').
    rewrite <- app_assoc, <- app_comm_cons.
    replace (6 + length l + f)%nat with (5 + (1 + length l + f))%nat at 1 by lia.
    rewrite parse_item.
    rewrite expect_comma, (IH it' f). reflexivity.
Qed.

Lemma length_join_items l :
  (length l <= length (join_comma (List.map stringify (List.map to_json l))))%nat.
Proof.
  destruct l as [|it l]; [done|].
  cbn [List.map join_comma]. rewrite length_app.
  assert (1 <= length (stringify (to_json it)))%nat by (simpl; lia).
  assert (length l <=
          length (concat (List.map (fun q : jsstring => 44%N :: q)
                            (List.map stringify (List.map to_json l)))))%nat.
  { induction l as [|it' l IH]; [done|].
    cbn [List.map concat]. rewrite length_app. simpl length. lia. }
  simpl length. lia.
Qed.

Lemma parse_array_of_objects f r :
  parse_value (S f) (91 :: 123 :: r) =
  match parse_elements f (123 :: r) with
  | Some (vs, r') => Some (JArr vs, r')
  | None => None
  end.
Proof. reflexivity. Qed.

(** What the component saves, [JSON.parse] reads back. *)
Lemma parse_stringify_list l :
  parse (stringify (list_to_json l)) = Some (list_to_json l).
Proof.
  unfold parse, fuel_for, list_to_json.
  cbn [stringify]. rewrite List.map_map.
  pose proof (length_join_items l) as Hlen. rewrite List.map_map in Hlen.
  set (body := join_comma (List.map (fun x => stringify (to_json x)) l)) in *.
  simpl length. rewrite length_app. simpl length.
  destruct l as [|it l]; [reflexivity|].
  assert (exists r, body ++ [93] = 123 :: r) as [r Hr].
  { subst body. cbn [List.map join_comma]. rewrite <- app_assoc, stringify_item.
    eexists. reflexivity. }
  assert (S (length l) <= length body)%nat by exact Hlen.
  replace (2 * S (length body + 1) + 2)%nat
    with (S (6 + length l + (2 * length body - length l - 1)))%nat by lia.
  rewrite Hr, parse_array_of_objects, <- Hr.
  subst body. rewrite <- List.map_map, parse_items. reflexivity.
Qed.
End JSON_roundtrip.

(** ** The fuel of [JSON.parse] is enough *)

Section JSON_fuel.
Import JSON.
Local Open Scope N_scope.

Lemma skip_ws_length l : (length (skip_ws l) <= length l)%nat.
Proof. induction l as [|c l IH]; simpl; [lia|]. destruct (is_ws c); simpl; lia. Qed.

Lemma expect_length c l r : expect c l = Some r -> (length r < length l)%nat.
Proof.
  unfold expect. pose proof (skip_ws_length l) as Hws.
  destruct (skip_ws l) as [|c' r']; [done|]. destruct (c' =? c); [|done].
  intros [= <-]. simpl in Hws. lia.
Qed.

Lemma push_Some c o s r :
  push c o = Some (s, r) -> exists s', o = Some (s', r).
Proof. destruct o as [[s' r']|]; [|done]. intros [= _ <-]. by exists s'. Qed.

Lemma parse_string_body_length_le n : forall l s r,
  (length l <= n)%nat -> parse_string_body l = Some (s, r) -> (length r < length l)%nat.
Proof.
  induction n as [|n IH]; intros [|c l] s r Hlen; simpl in Hlen; try lia; try done.
  simpl. destruct (c =? 34); [intros [= _ <-]; lia|].
  destruct (c =? 92).
  - destruct l as [|e l]; [done|]. destruct (e =? 117).
    + destruct l as [|h1 [|h2 [|h3 [|h4 l]]]]; try done.
      destruct (unhex4 h1 h2 h3 h4); [|done].
      intros (s' & H)%push_Some. apply IH in H; simpl in *; lia.
    + destruct (simple_escape e); [|done].
      intros (s' & H)%push_Some. apply IH in H; simpl in *; lia.
  - destruct (c <? 32); [done|].
    intros (s' & H)%push_Some. apply IH in H; simpl in *; lia.
Qed.

Lemma parse_string_body_length l s r :
  parse_string_body l = Some (s, r) -> (length r < length l)%nat.
Proof. by apply (parse_string_body_length_le (length l)). Qed.

Lemma strip_prefix_length p : forall l r,
  strip_prefix p l = Some r -> length l = (length p + length r)%nat.
Proof.
  induction p as [|a p IH]; intros l r; simpl.
  - by intros [= ->].
  - destruct l as [|b l]; [done|]. destruct (a =? b); [|done].
    intros H%IH. simpl. lia.
Qed.

Lemma take_digits_length l : (length (snd (take_digits l)) <= length l)%nat.
Proof.
  induction l as [|c l IH]; simpl; [lia|].
  destruct (is_digit c); simpl; [|lia].
  destruct (take_digits l). simpl in *. lia.
Qed.

Lemma parse_number_length l n r :
  parse_number l = Some (n, r) -> (length r < length l)%nat.
Proof.
  unfold parse_number.
  set (start := match l with
                | c :: l' => if c =? 45 then ([45], l') else ([], l)
                | [] => ([], l)
                end).
  assert (length (snd start) <= length l)%nat as Hstart.
  { subst start. destruct l as [|c l']; simpl; [lia|]. destruct (c =? 45); simpl; lia. }
  destruct start as [sign l1]. simpl in Hstart.
  destruct l1 as [|c l1']; [done|].
  assert (forall ip l2,
            (if c =? 48 then Some ([48], l1')
             else if is_digit c
                  then let '(ds, r0) := take_digits l1' in Some (c :: ds, r0)
                  else None) = Some (ip, l2) ->
            (length l2 <= length l1')%nat) as Hint.
  { intros ip l2. destruct (c =? 48); [by intros [= _ <-]|].
    destruct (is_digit c); [|done].
    pose proof (take_digits_length l1') as Hd. destruct (take_digits l1').
    intros [= _ <-]. exact Hd. }
  destruct (if c =? 48 then _ else _) as [[ip l2]|]; [|done].
  specialize (Hint ip l2 eq_refl).
  set (frac := match l2 with
               | c0 :: l' =>
                   if c0 =? 46 then
                     match take_digits l' with
                     | ([], _) => None
                     | (ds, r0) => Some (46 :: ds, r0)
                     end
                   else Some ([], l2)
               | [] => Some ([], l2)
               end).
  assert (forall fp l3, frac = Some (fp, l3) -> (length l3 <= length l2)%nat) as Hfrac.
  { intros fp l3. subst frac. destruct l2 as [|c0 l']; [by intros [= _ <-]|].
    destruct (c0 =? 46); [|by intros [= _ <-]].
    pose proof (take_digits_length l') as Hd. destruct (take_digits l') as [[|d ds] r0];
      [done|]. intros [= _ <-]. simpl in *. lia. }
  destruct frac as [[fp l3]|]; [|done]. specialize (Hfrac fp l3 eq_refl).
  set (expo := match l3 with
               | c0 :: l' =>
                   if (c0 =? 101) || (c0 =? 69) then
                     let '(sg, l'') :=
                       match l' with
                       | d :: r0 => if (d =? 43) || (d =? 45) then ([d], r0) else ([], l')
                       | [] => ([], l')
                       end in
                     match take_digits l'' with
                     | ([], _) => None
                     | (ds, r0) => Some (c0 :: sg ++ ds, r0)
                     end
                   else Some ([], l3)
               | [] => Some ([], l3)
               end).
  assert (forall ep l4, expo = Some (ep, l4) -> (length l4 <= length l3)%nat) as Hexpo.
  { intros ep l4. subst expo. destruct l3 as [|c0 l']; [by intros [= _ <-]|].
    destruct ((c0 =? 101) || (c0 =? 69)); [|by intros [= _ <-]].
    set (sgn := match l' with
                | d :: r0 => if (d =? 43) || (d =? 45) then ([d], r0) else ([], l')
                | [] => ([], l')
                end).
    assert (length (snd sgn) <= length l')%nat as Hsgn.
    { subst sgn. destruct l' as [|d r0]; simpl; [lia|].
      destruct ((d =? 43) || (d =? 45)); simpl; lia. }
    destruct sgn as [sg l'']. simpl in Hsgn.
    pose proof (take_digits_length l'') as Hd.
    destruct (take_digits l'') as [[|d ds] r0]; [done|].
    intros [= _ <-]. simpl in *. lia. }
  destruct expo as [[ep l4]|]; [|done]. specialize (Hexpo ep l4 eq_refl).
  intros [= _ <-]. simpl in *. lia.
Qed.

Lemma parse_value_S f l :
  parse_value (S f) l =
  match skip_ws l with
  | [] => None
  | c :: r =>
      if c =? 34 then
        match parse_string_body r with
        | Some (s, r') => Some (JStr s, r')
        | None => None
        end
      else if c =? 91 then
        match expect 93 r with
        | Some r' => Some (JArr [], r')
        | None =>
            match parse_elements f r with
            | Some (vs, r') => Some (JArr vs, r')
            | None => None
            end
        end
      else if c =? 123 then
        match expect 125 r with
        | Some r' => Some (JObj [], r')
        | None =>
            match parse_members f r with
            | Some (ms, r') => Some (JObj ms, r')
            | None => None
            end
        end
      else if c =? 116 then
        match strip_prefix text_true (c :: r) with
        | Some r' => Some (JBool true, r')
        | None => None
        end
      else if c =? 102 then
        match strip_prefix text_false (c :: r) with
        | Some r' => Some (JBool false, r')
        | None => None
        end
      else if c =? 110 then
        match strip_prefix text_null (c :: r) with
        | Some r' => Some (JNull, r')
        | None => None
        end
      else
        match parse_number (c :: r) with
        | Some (n, r') => Some (JNum n, r')
        | None => None
        end
  end.
Proof. reflexivity. Qed.

Lemma parse_members_S f l :
  parse_members (S f) l =
  match expect 34 l with
  | None => None
  | Some r =>
      match parse_string_body r with
      | None => None
      | Some (k, r1) =>
          match expect 58 r1 with
          | None => None
          | Some r2 =>
              match parse_value f r2 with
              | None => None
              | Some (v, r3) =>
                  match expect 44 r3 with
                  | Some r4 =>
                      match parse_members f r4 with
                      | Some (ms, r5) => Some ((k, v) :: ms, r5)
                      | None => None
                      end
                  | None =>
                      match expect 125 r3 with
                      | Some r4 => Some ([(k, v)], r4)
                      | None => None
                      end
                  end
              end
          end
      end
  end.
Proof. reflexivity. Qed.

(** Every successful call reads at least one character. *)
Lemma parse_consumes f :
  (forall l v r, parse_value f l = Some (v, r) -> (length r < length l)%nat)
  /\ (forall l vs r, parse_elements f l = Some (vs, r) -> (length r < length l)%nat)
  /\ (forall l ms r, parse_members f l = Some (ms, r) -> (length r < length l)%nat).
Proof.
  induction f as [|f (IHv & IHe & IHm)]; [done|]. split; [|split].
  - intros l v r. rewrite parse_value_S.
    pose proof (skip_ws_length l) as Hws.
    destruct (skip_ws l) as [|c t]; [done|]. simpl in Hws.
    destruct (c =? 34).
    { destruct (parse_string_body t) as [[s r']|] eqn:Hs; [|done].
      apply parse_string_body_length in Hs. intros [= _ <-]. lia. }
    destruct (c =? 91).
    { destruct (expect 93 t) as [r'|] eqn:Hx.
      - apply expect_length in Hx. intros [= _ <-]. lia.
      - destruct (parse_elements f t) as [[vs r']|] eqn:He; [|done].
        apply IHe in He. intros [= _ <-]. lia. }
    destruct (c =? 123).
    { destruct (expect 125 t) as [r'|] eqn:Hx.
      - apply expect_length in Hx. intros [= _ <-]. lia.
      - destruct (parse_members f t) as [[ms r']|] eqn:Hm; [|done].
        apply IHm in Hm. intros [= _ <-]. lia. }
    destruct (c =? 116).
    { destruct (strip_prefix text_true (c :: t)) as [r'|] eqn:Hp; [|done].
      apply strip_prefix_length in Hp. intros [= _ <-]. simpl in Hp. lia. }
    destruct (c =? 102).
    { destruct (strip_prefix text_false (c :: t)) as [r'|] eqn:Hp; [|done].
      apply strip_prefix_length in Hp. intros [= _ <-]. simpl in Hp. lia. }
    destruct (c =? 110).
    { destruct (strip_prefix text_null (c :: t)) as [r'|] eqn:Hp; [|done].
      apply strip_prefix_length in Hp. intros [= _ <-]. simpl in Hp. lia. }
    destruct (parse_number (c :: t)) as [[n r']|] eqn:Hn; [|done].
    apply parse_number_length in Hn. intros [= _ <-]. simpl in Hn. lia.
  - intros l vs r. rewrite parse_elements_S.
    destruct (parse_value f l) as [[v t]|] eqn:Hv; [|done]. apply IHv in Hv.
    destruct (expect 44 t) as [t'|] eqn:Hx.
    + apply expect_length in Hx.
      destruct (parse_elements f t') as [[vs' r']|] eqn:He; [|done].
      apply IHe in He. intros [= _ <-]. lia.
    + destruct (expect 93 t) as [t'|] eqn:Hy; [|done].
      apply expect_length in Hy. intros [= _ <-]. lia.
  - intros l ms r. rewrite parse_members_S.
    destruct (expect 34 l) as [t|] eqn:Hq; [|done]. apply expect_length in Hq.
    destruct (parse_string_body t) as [[k t1]|] eqn:Hk; [|done].
    apply parse_string_body_length in Hk.
    destruct (expect 58 t1) as [t2|] eqn:Hc; [|done]. apply expect_length in Hc.
    destruct (parse_value f t2) as [[v t3]|] eqn:Hv; [|done]. apply IHv in Hv.
    destruct (expect 44 t3) as [t4|] eqn:Hx.
    + apply expect_length in Hx.
      destruct (parse_members f t4) as [[ms' r']|] eqn:Hm; [|done].
      apply IHm in Hm. intros [= _ <-]. lia.
    + destruct (expect 125 t3) as [t4|] eqn:Hy; [|done].
      apply expect_length in Hy. intros [= _ <-]. lia.
Qed.

(** With fuel for the length of the text, more fuel changes nothing. *)
Lemma parse_fuel_enough f1 : forall f2,
  (forall l, (2 * length l + 1 <= f1)%nat -> (2 * length l + 1 <= f2)%nat ->
             parse_value f1 l = parse_value f2 l)
  /\ (forall l, (2 * length l + 2 <= f1)%nat -> (2 * length l + 2 <= f2)%nat ->
                parse_elements f1 l = parse_elements f2 l)
  /\ (forall l, (2 * length l + 2 <= f1)%nat -> (2 * length l + 2 <= f2)%nat ->
                parse_members f1 l = parse_members f2 l).
Proof.
  induction f1 as [|f1 IH]; intros f2.
  { repeat split; intros l H1 H2; lia. }
  destruct f2 as [|f2]; [repeat split; intros l H1 H2; lia|].
  destruct (IH f2) as (IHv & IHe & IHm). split; [|split]; intros l H1 H2.
  - rewrite !parse_value_S.
    pose proof (skip_ws_length l) as Hws.
    destruct (skip_ws l) as [|c t]; [done|]. simpl in Hws.
    rewrite (IHe t), (IHm t) by lia. reflexivity.
  - rewrite !parse_elements_S.
    rewrite (IHv l) by lia.
    destruct (parse_value f2 l) as [[v t]|] eqn:Hv; [|done].
    apply (proj1 (parse_consumes f2)) in Hv.
    destruct (expect 44 t) as [t'|] eqn:Hx; [|done].
    apply expect_length in Hx. rewrite (IHe t') by lia. reflexivity.
  - rewrite !parse_members_S.
    destruct (expect 34 l) as [t|] eqn:Hq; [|done]. apply expect_length in Hq.
    destruct (parse_string_body t) as [[k t1]|] eqn:Hk; [|done].
    apply parse_string_body_length in Hk.
    destruct (expect 58 t1) as [t2|] eqn:Hc; [|done]. apply expect_length in Hc.
    rewrite (IHv t2) by lia.
    destruct (parse_value f2 t2) as [[v t3]|] eqn:Hv; [|done].
    apply (proj1 (parse_consumes f2)) in Hv.
    destruct (expect 44 t3) as [t4|] eqn:Hx; [|done].
    apply expect_length in Hx. rewrite (IHm t4) by lia. reflexivity.
Qed.

(** [JSON.parse] never fails for lack of fuel: any larger amount gives the
    same result. *)
Lemma parse_value_fuel_for text extra :
  parse_value (fuel_for text + extra) text = parse_value (fuel_for text) text.
Proof.
  apply (proj1 (parse_fuel_enough (fuel_for text + extra) (fuel_for text)));
    unfold fuel_for; lia.
Qed.

End JSON_fuel.

(** ** Saving and loading *)

Lemma as_stored_item_to_json item :
  as_stored_item (to_json item) = Some (title item, completed item).
Proof. destruct item as [t c i]. reflexivity. Qed.

Lemma map_with_id_to_json l : forall w,
  map_with_id (List.map to_json l) w =
  (Returns (with_ids (uuid_supply w) (uuid_count w) l),
   with_uuid_count (uuid_count w + length l) w).
Proof.
  induction l as [|item l IH]; intros w.
  - simpl. rewrite Nat.add_0_r. by destruct w.
  - cbn [List.map map_with_id randomUUID]. rewrite IH, as_stored_item_to_json.
    cbn [length]. rewrite Nat.add_succ_r. reflexivity.
Qed.

Lemma getItem_save l w :
  getItem storage_key (save l w) = Some (JSON.stringify (list_to_json l)).
Proof. unfold getItem, save, setItem. simpl. apply lookup_insert_eq. Qed.

Lemma load_save l w :
  load (save l w) =
  (Returns (with_ids (uuid_supply w) (uuid_count w) l),
   with_uuid_count (uuid_count w + length l) (save l w)).
Proof.
  unfold load. rewrite getItem_save.
  assert (exists c s, JSON.stringify (list_to_json l) = c :: s) as (c & s & Htext)
    by (eexists _, _; reflexivity).
  rewrite Htext. cbv iota. rewrite <- Htext.
  rewrite parse_stringify_list. unfold list_to_json.
  by rewrite map_with_id_to_json.
Qed.

Lemma with_ids_length supply n l : length (with_ids supply n l) = length l.
Proof. revert n. induction l; intros; simpl; auto. Qed.

Lemma with_ids_title supply n l :
  List.map title (with_ids supply n l) = List.map title l.
Proof. revert n. induction l; intros; simpl; f_equal; auto. Qed.

Lemma with_ids_completed supply n l :
  List.map completed (with_ids supply n l) = List.map completed l.
Proof. revert n. induction l; intros; simpl; f_equal; auto. Qed.

Lemma with_ids_id supply n l :
  List.map id (with_ids supply n l) = List.map supply (seq n (length l)).
Proof. revert n. induction l; intros; simpl; f_equal; auto. Qed.

(** C1, as the code has it: [save(x)] then [load()] returns the tasks of [x]
    in the same order with the same [title] and [completed], and gives
    every task a newly generated id, the next values of
    [crypto.randomUUID]; the stored ids are not read back. *)
Theorem load_after_save_renews_ids (x : list TodoItem) (w : Window) :
  exists y,
    fst (load (save x w)) = Returns y
    /\ length y = length x
    /\ List.map title y = List.map title x
    /\ List.map completed y = List.map completed x
    /\ List.map id y = List.map (uuid_supply w) (seq (uuid_count w) (length x)).
Proof.
  exists (with_ids (uuid_supply w) (uuid_count w) x).
  rewrite load_save. simpl.
  auto using with_ids_length, with_ids_title, with_ids_completed, with_ids_id.
Qed.

(** C1 as stated fails: the list saved after one [add] comes back from
    [load] with another id. *)
Lemma load_after_save_not_equal :
  let p := run empty_page [Type_text (js "A"); Click_add] in
  let x := _list (this p) in
  x = [{| title := js "A"; completed := false; id := demo_uuid 0 |}]
  /\ fst (load (save x (window p)))
     = Returns [{| title := js "A"; completed := false; id := demo_uuid 1 |}]
  /\ fst (load (save x (window p))) <> Returns x.
Proof.
  split; [reflexivity|]. split; [vm_compute; reflexivity|].
  vm_compute. intros H. discriminate H.
Qed.

(** More generally, when the ids of the list were drawn from a generator
    that never repeats, no id of the saved list is found in the loaded one. *)
Lemma load_after_save_ids_are_new (p : Page) (y : list TodoItem) :
  well_keyed p ->
  fst (load (save (_list (this p)) (window p))) = Returns y ->
  forall i, In i (List.map id y) -> ~ In i (List.map id (_list (this p))).
Proof.
  intros (Hgen & Hdrawn & _). rewrite load_save. simpl. intros [= <-] i Hnew Hold.
  rewrite with_ids_id in Hnew.
  apply in_map_iff in Hnew as (k & <- & Hk). apply in_seq in Hk.
  apply in_map_iff in Hold as (item & Hid & Hitem).
  unfold ids_drawn in Hdrawn. rewrite List.Forall_forall in Hdrawn.
  destruct (Hdrawn item Hitem) as (j & Hj & Hidj).
  rewrite Hidj in Hid. apply Hgen in Hid. lia.
Qed.

(** A stored array whose elements are not objects with a [title] and a
    [completed] gives a list that is not a list of [TodoItem]. *)
Example load_foreign_array :
  fst (load (setItem storage_key (js "[1]") fresh_window)) = Untyped.
Proof. reflexivity. Qed.

(** C2, as the code has it: when nothing is stored under the key, or the
    empty string is, [load()] returns the empty list and throws nothing; a
    stored text that is not JSON makes it throw the SyntaxError of
    [JSON.parse], and a JSON text that is not an array makes it throw a
    TypeError. *)
Theorem load_soft_only_without_data (w : Window) :
  (getItem storage_key w = None \/ getItem storage_key w = Some [] ->
   load w = (Returns [], w))
  /\ (forall text, getItem storage_key w = Some text -> text <> [] ->
      JSON.parse text = None -> load w = (Throws SyntaxError, w))
  /\ (forall text v, getItem storage_key w = Some text -> text <> [] ->
      JSON.parse text = Some v -> (forall vs, v <> JSON.JArr vs) ->
      load w = (Throws TypeError, w)).
Proof.
  unfold load. repeat split.
  - intros [-> | ->]; reflexivity.
  - intros [|c s] -> Hne Hparse; [done|]. by rewrite Hparse.
  - intros [|c s] v -> Hne Hparse Hv; [done|]. rewrite Hparse.
    destruct v; try reflexivity. by destruct (Hv elems).
Qed.

Lemma load_soft_only_without_data_witness :
  load fresh_window = (Returns [], fresh_window)
  /\ (let w := setItem storage_key (js "{") fresh_window in
      load w = (Throws SyntaxError, w))
  /\ (let w := setItem storage_key (js "{}") fresh_window in
      load w = (Throws TypeError, w)).
Proof.
  split; [|split].
  - apply (proj1 (load_soft_only_without_data fresh_window)). left. reflexivity.
  - apply (proj1 (proj2 (load_soft_only_without_data
                           (setItem storage_key (js "{") fresh_window))) (js "{")).
    + reflexivity.
    + discriminate.
    + reflexivity.
  - apply (proj2 (proj2 (load_soft_only_without_data
                           (setItem storage_key (js "{}") fresh_window)))
             (js "{}") (JSON.JObj [])).
    + reflexivity.
    + discriminate.
    + reflexivity.
    + discriminate.
Defined.

(** C2 as stated fails: a stored text that is not JSON makes [load] throw. *)
Lemma load_malformed_throws :
  let w := setItem storage_key (js "{") fresh_window in
  fst (load w) = Throws SyntaxError /\ fst (load w) <> Returns [].
Proof. split; [reflexivity|]. vm_compute. discriminate. Qed.

(** ** Add *)

(** C3, as the code has it: with the empty string in the text field, add
    does nothing: the list, the storage and the field are as before. *)
Theorem add_empty_title_noop (p : Page) :
  _todoInput (this p) = [] ->
  _handleAddTodo p = p
  /\ _list (this (_handleAddTodo p)) = _list (this p)
  /\ localStorage (window (_handleAddTodo p)) = localStorage (window p)
  /\ _todoInput (this (_handleAddTodo p)) = _todoInput (this p).
Proof.
  intros Hempty. assert (_handleAddTodo p = p) as ->; [|done].
  unfold _handleAddTodo. by rewrite Hempty.
Qed.

Lemma add_empty_title_noop_witness :
  _handleAddTodo empty_page = empty_page
  /\ _list (this (_handleAddTodo empty_page)) = _list (this empty_page)
  /\ localStorage (window (_handleAddTodo empty_page)) = localStorage (window empty_page)
  /\ _todoInput (this (_handleAddTodo empty_page)) = _todoInput (this empty_page).
Proof. apply (add_empty_title_noop empty_page). reflexivity. Defined.

(** C3 as stated fails: a title of one space is added, saved, and the field
    is cleared. *)
Lemma add_whitespace_title_adds :
  let p := run empty_page [Type_text (js " ")] in
  _list (this p) = []
  /\ _list (this (_handleAddTodo p))
     = [{| title := js " "; completed := false; id := demo_uuid 0 |}]
  /\ localStorage (window (_handleAddTodo p)) <> localStorage (window p)
  /\ _todoInput (this p) = js " "
  /\ _todoInput (this (_handleAddTodo p)) = [].
Proof.
  repeat split; try reflexivity.
  intros H. apply (f_equal (fun m => m !! storage_key)) in H.
  vm_compute in H. discriminate H.
Qed.

(** C8: with a non-empty title in the text field, add puts one new task
    with that title, not completed, with the id [crypto.randomUUID]
    returns, at the end of the list; the tasks before are unchanged and in
    order; the new list is saved and the field is cleared.  The new id is
    none of the ids in the list when these were drawn from a generator that
    never repeats. *)
Theorem add_appends_new_task (p : Page) :
  _todoInput (this p) <> [] ->
  let p' := _handleAddTodo p in
  let task := {| title := _todoInput (this p); completed := false;
                 id := uuid_supply (window p) (uuid_count (window p)) |} in
  _list (this p') = _list (this p) ++ [task]
  /\ getItem storage_key (window p') = Some (JSON.stringify (list_to_json (_list (this p'))))
  /\ _todoInput (this p') = []
  /\ (never_repeats (window p) -> ids_drawn p ->
      ~ In (id task) (List.map id (_list (this p)))).
Proof.
  intros Hne. unfold _handleAddTodo.
  destruct (_todoInput (this p)) as [|c s] eqn:Hvalue; [done|].
  cbn zeta. cbn [randomUUID this window with_list with_todoInput _list _todoInput].
  split; [reflexivity|]. split; [apply getItem_save|]. split; [reflexivity|].
  intros Hinj Hdrawn Hin. cbn [id] in Hin.
  apply in_map_iff in Hin as (item & Hid & Hitem).
  unfold ids_drawn in Hdrawn. rewrite List.Forall_forall in Hdrawn.
  destruct (Hdrawn item Hitem) as (k & Hk & Hidk).
  rewrite Hidk in Hid. apply Hinj in Hid. lia.
Qed.

Lemma demo_uuid_never_repeats w :
  uuid_supply w = demo_uuid -> never_repeats w.
Proof.
  intros Hw j k. rewrite Hw. unfold demo_uuid. intros H.
  apply app_inv_head in H. injection H as H. lia.
Qed.

Lemma add_appends_new_task_witness :
  let p := run two_tasks [Type_text (js "Feed cat")] in
  _list (this (_handleAddTodo p))
  = [milk; dog; {| title := js "Feed cat"; completed := false; id := demo_uuid 2 |}]
  /\ _todoInput (this (_handleAddTodo p)) = []
  /\ ~ In (demo_uuid 2) (List.map id (_list (this p))).
Proof.
  intros p.
  destruct (add_appends_new_task p) as (Hlist & _ & Hinput & Hfresh).
  - discriminate.
  - split; [exact Hlist|]. split; [exact Hinput|].
    apply Hfresh.
    + by apply demo_uuid_never_repeats.
    + apply List.Forall_cons; [exists 0; split; [simpl; lia|reflexivity]|].
      apply List.Forall_cons; [exists 1; split; [simpl; lia|reflexivity]|].
      apply List.Forall_nil.
Defined.

(** ** Toggle *)

Lemma two_tasks_list : _list (this two_tasks) = [milk; dog].
Proof. reflexivity. Qed.


Lemma toggle_item_match i item : id item = i -> toggle_item i item = flipped item.
Proof. intros H. unfold toggle_item. by rewrite decide_True. Qed.

Lemma toggle_item_other i item : id item <> i -> toggle_item i item = item.
Proof. intros H. unfold toggle_item. by rewrite decide_False. Qed.

Lemma toggle_item_twice i item : toggle_item i (toggle_item i item) = item.
Proof.
  unfold toggle_item. destruct (decide (id item = i)) as [Heq|Hne].
  - simpl. rewrite decide_True by done. destruct item as [t c x]. simpl.
    by rewrite negb_involutive.
  - by rewrite decide_False.
Qed.

Lemma map_toggle_none i l :
  (forall item, In item l -> id item <> i) -> List.map (toggle_item i) l = l.
Proof.
  induction l as [|item l IH]; intros Hno; [done|]. simpl.
  rewrite toggle_item_other by (apply Hno; by left).
  f_equal. apply IH. intros x Hx. apply Hno. by right.
Qed.

Lemma save_save l1 l2 w : save l2 (save l1 w) = save l2 w.
Proof.
  unfold save, setItem, with_localStorage. simpl. by rewrite insert_insert_eq.
Qed.

(** C5: toggle flips [completed] in every place whose task has the id and
    leaves the task in every other place as it is; the list keeps its
    length and order; with no task of that id the list is the same.  The
    handler is a total function: nothing is thrown. *)
Theorem toggle_flips_matching (i : jsstring) (p : Page) :
  let l := _list (this p) in
  let l' := _list (this (_handleCheckedTodo i p)) in
  length l' = length l
  /\ (forall k item, l !! k = Some item ->
       l' !! k = Some (if decide (id item = i) then flipped item else item))
  /\ (forall k item, l !! k = Some item -> id item <> i -> l' !! k = Some item)
  /\ ((forall item, In item l -> id item <> i) -> l' = l).
Proof.
  cbn zeta. unfold _handleCheckedTodo. cbn [this _list with_list].
  split; [apply length_map|]. split; [|split].
  - intros k item Hk.
    change (List.map (toggle_item i) (_list (this p)))
      with (toggle_item i <$> _list (this p)).
    rewrite list_lookup_fmap, Hk. reflexivity.
  - intros k item Hk Hne.
    change (List.map (toggle_item i) (_list (this p)))
      with (toggle_item i <$> _list (this p)).
    rewrite list_lookup_fmap, Hk. simpl. by rewrite toggle_item_other.
  - apply map_toggle_none.
Qed.

Lemma toggle_flips_matching_witness :
  _list (this (_handleCheckedTodo (js "no such id") two_tasks)) !! 0 = Some milk
  /\ _list (this (_handleCheckedTodo (js "no such id") two_tasks)) = _list (this two_tasks).
Proof.
  destruct (toggle_flips_matching (js "no such id") two_tasks) as (_ & _ & Hother & Hnone).
  split.
  - apply Hother; [reflexivity|]. vm_compute. discriminate.
  - apply Hnone. rewrite two_tasks_list.
    intros item [<-|[<-|[]]]; vm_compute; discriminate.
Defined.

Lemma handleChecked_twice (i : jsstring) (p : Page) :
  _handleCheckedTodo i (_handleCheckedTodo i p)
  = {| this := this p; window := save (_list (this p)) (window p) |}.
Proof.
  unfold _handleCheckedTodo. cbn [this window _list with_list].
  rewrite List.map_map.
  assert (List.map (fun x => toggle_item i (toggle_item i x)) (_list (this p))
          = _list (this p)) as ->.
  { rewrite <- (List.map_id (_list (this p))) at 2.
    apply List.map_ext. apply toggle_item_twice. }
  rewrite save_save. by destruct p as [[l v t] w].
Qed.

(** ** Delete *)

Lemma filter_keeps_all (i : jsstring) l :
  (forall item, In item l -> id item <> i) ->
  List.filter (fun item => negb (bool_decide (id item = i))) l = l.
Proof.
  induction l as [|item l IH]; intros Hno; [done|]. simpl.
  rewrite bool_decide_eq_false_2 by (apply Hno; by left). simpl.
  f_equal. apply IH. intros x Hx. apply Hno. by right.
Qed.

Lemma filter_no_match (i : jsstring) l :
  length (List.filter (has_id i) l) = 0 ->
  forall item, In item l -> id item <> i.
Proof.
  induction l as [|x l IH]; intros Hcount item Hin; [done|].
  simpl in Hcount. unfold has_id in Hcount at 1.
  destruct (bool_decide_reflect (id x = i)); [done|].
  destruct Hin as [<-|Hin]; [done|]. by apply IH.
Qed.

Lemma filter_one_match (i : jsstring) l :
  length (List.filter (has_id i) l) = 1 ->
  exists l1 t l2,
    l = l1 ++ t :: l2 /\ id t = i
    /\ List.filter (fun item => negb (bool_decide (id item = i))) l = l1 ++ l2.
Proof.
  induction l as [|x l IH]; intros Hcount; [done|].
  simpl in *. unfold has_id in Hcount at 1.
  destruct (bool_decide_reflect (id x = i)) as [Heq|Hne]; simpl in *.
  - exists [], x, l. repeat split; [done|].
    apply filter_keeps_all, filter_no_match. simpl. lia.
  - destruct (IH Hcount) as (l1 & t & l2 & -> & Ht & Hrest).
    exists (x :: l1), t, l2. repeat split; [done|]. simpl. by rewrite Hrest.
Qed.

(** C7: from a list with exactly one task of id [X], delete gives the list
    without that task: one shorter, no task of id [X], the others unchanged
    and in order.  With no task of id [X] the list is the same. *)
Theorem delete_removes_the_task (X : jsstring) (p : Page) :
  let l := _list (this p) in
  let l' := _list (this (_handleDeleteTodo X p)) in
  (length (List.filter (has_id X) l) = 1 ->
     length l' = length l - 1
     /\ (forall item, In item l' -> id item <> X)
     /\ exists l1 t l2, l = l1 ++ t :: l2 /\ id t = X /\ l' = l1 ++ l2)
  /\ ((forall item, In item l -> id item <> X) -> l' = l).
Proof.
  cbn zeta. unfold _handleDeleteTodo. cbn [this _list with_list]. split.
  - intros Hone.
    destruct (filter_one_match X _ Hone) as (l1 & t & l2 & Hl & Ht & Hrest).
    split; [|split].
    + rewrite Hrest, Hl, !length_app. simpl. lia.
    + intros item Hin. apply filter_In in Hin as [_ Hin].
      apply negb_true_iff, bool_decide_eq_false in Hin. done.
    + by exists l1, t, l2.
  - apply filter_keeps_all.
Qed.

Lemma delete_removes_the_task_witness :
  length (_list (this (_handleDeleteTodo (demo_uuid 0) two_tasks))) = 1
  /\ _list (this (_handleDeleteTodo (js "no such id") two_tasks)) = _list (this two_tasks).
Proof.
  split.
  - destruct (delete_removes_the_task (demo_uuid 0) two_tasks) as [Hone _].
    destruct Hone as (Hlen & _); [reflexivity|]. exact Hlen.
  - destruct (delete_removes_the_task (js "no such id") two_tasks) as [_ Hnone].
    apply Hnone. rewrite two_tasks_list.
    intros item [<-|[<-|[]]]; vm_compute; discriminate.
Defined.

(** ** Lists in which an id occurs more than once *)

Lemma filter_complement_length (i : jsstring) (l : list TodoItem) :
  length (List.filter (fun item => negb (bool_decide (id item = i))) l)
  = length l - length (List.filter (has_id i) l).
Proof.
  assert (length (List.filter (fun item => negb (bool_decide (id item = i))) l)
          + length (List.filter (has_id i) l) = length l); [|lia].
  induction l as [|x l IH]; [done|]. simpl. unfold has_id at 1.
  destruct (bool_decide (id x = i)); simpl; lia.
Qed.

(** C10: delete removes every task whose id is the given one, however many
    there are, and keeps the others; toggle flips [completed] in every
    place whose task has that id. *)
Theorem delete_and_toggle_reach_every_match (i : jsstring) (p : Page) :
  let l := _list (this p) in
  let deleted := _list (this (_handleDeleteTodo i p)) in
  let toggled := _list (this (_handleCheckedTodo i p)) in
  (forall item, In item deleted -> id item <> i)
  /\ (forall item, In item l -> id item <> i -> In item deleted)
  /\ length deleted = length l - length (List.filter (has_id i) l)
  /\ (forall k item, l !! k = Some item -> id item = i ->
        toggled !! k = Some (flipped item)).
Proof.
  cbn zeta. unfold _handleDeleteTodo, _handleCheckedTodo. cbn [this _list with_list].
  split; [|split; [|split]].
  - intros item Hin. apply filter_In in Hin as [_ Hin].
    by apply negb_true_iff, bool_decide_eq_false in Hin.
  - intros item Hin Hne. apply filter_In. split; [done|].
    by apply negb_true_iff, bool_decide_eq_false.
  - apply filter_complement_length.
  - intros k item Hk Hid.
    change (List.map (toggle_item i) (_list (this p)))
      with (toggle_item i <$> _list (this p)).
    rewrite list_lookup_fmap, Hk. simpl. by rewrite toggle_item_match.
Qed.

Lemma delete_and_toggle_reach_every_match_witness :
  _list (this (_handleDeleteTodo (demo_uuid 0) shared_id_page)) = [dog]
  /\ _list (this (_handleCheckedTodo (demo_uuid 0) shared_id_page)) !! 0 = Some (flipped milk)
  /\ _list (this (_handleCheckedTodo (demo_uuid 0) shared_id_page)) !! 2
     = Some (flipped milk_again)
  /\ In dog (_list (this (_handleDeleteTodo (demo_uuid 0) shared_id_page))).
Proof.
  destruct (delete_and_toggle_reach_every_match (demo_uuid 0) shared_id_page)
    as (_ & Hkept & _ & Hflip).
  split; [reflexivity|]. split; [|split].
  - apply Hflip; reflexivity.
  - apply (Hflip 2); reflexivity.
  - apply Hkept; [right; left; reflexivity|]. vm_compute. discriminate.
Defined.

(** ** The order [render] shows *)

Lemma sort_insert_incomplete x l :
  completed x = false -> sort_insert by_completed x l = x :: l.
Proof.
  intros Hx. destruct l as [|y l]; [done|]. simpl. unfold by_completed.
  rewrite Hx. by destruct (completed y).
Qed.

Lemma sort_insert_completed x todo finished :
  completed x = true ->
  Forall (fun item => completed item = false) todo ->
  Forall (fun item => completed item = true) finished ->
  sort_insert by_completed x (todo ++ finished) = todo ++ x :: finished.
Proof.
  intros Hx Htodo Hfin. induction Htodo as [|y todo Hy _ IH]; simpl.
  - destruct Hfin as [|y finished Hy _]; [done|]. simpl.
    unfold by_completed. by rewrite Hx, Hy.
  - unfold by_completed at 1. rewrite Hx, Hy. simpl. by rewrite IH.
Qed.

Lemma sorted_by_completed l :
  sorted by_completed l =
  List.filter (fun item => negb (completed item)) l ++ List.filter completed l.
Proof.
  induction l as [|x l IH]; [done|]. simpl. rewrite IH.
  destruct (completed x) eqn:Hx; simpl.
  - apply sort_insert_completed; [done| |]; apply List.Forall_forall;
      intros item Hin; apply filter_In in Hin as [_ Hin]; [|done].
    by apply negb_true_iff in Hin.
  - by apply sort_insert_incomplete.
Qed.

Lemma partition_by_completed_perm (l : list TodoItem) :
  Permutation
    (List.filter (fun item => negb (completed item)) l ++ List.filter completed l) l.
Proof.
  induction l as [|x l IH]; [constructor|]. simpl.
  destruct (completed x); simpl.
  - apply Permutation_sym, Permutation_cons_app, Permutation_sym, IH.
  - by constructor.
Qed.

Lemma filter_all (f : TodoItem -> bool) l :
  Forall (fun item => f item = true) l -> List.filter f l = l.
Proof.
  induction 1 as [|x l Hx _ IH]; [done|]. simpl. rewrite Hx. by f_equal.
Qed.

Lemma filter_none (f : TodoItem -> bool) l :
  Forall (fun item => f item = false) l -> List.filter f l = [].
Proof.
  induction 1 as [|x l Hx _ IH]; [done|]. simpl. by rewrite Hx.
Qed.

(** The result does not depend on the sorting algorithm: a list that has
    the tasks not completed before the completed ones, and in which the
    tasks of each group are those of [l] in the order of [l], is the list
    [render] shows. *)
Lemma stable_order_by_completed_unique (l r todo finished : list TodoItem) :
  r = todo ++ finished ->
  Forall (fun item => completed item = false) todo ->
  Forall (fun item => completed item = true) finished ->
  List.filter (fun item => negb (completed item)) r
    = List.filter (fun item => negb (completed item)) l ->
  List.filter completed r = List.filter completed l ->
  r = sorted by_completed l.
Proof.
  intros -> Htodo Hfin Hkeep_todo Hkeep_fin.
  rewrite sorted_by_completed, <- Hkeep_todo, <- Hkeep_fin, !List.filter_app.
  rewrite (filter_all _ todo), (filter_none _ finished), app_nil_r.
  - rewrite (filter_none _ todo), (filter_all _ finished); done.
  - eapply List.Forall_impl; [|exact Hfin]. simpl. by intros item ->.
  - eapply List.Forall_impl; [|exact Htodo]. simpl. by intros item ->.
Qed.

(** [sort] works in place: called on the array itself, not on a copy, it
    reorders that array. *)
Example sort_in_place_reorders :
  let st := [[flipped milk; dog]] in
  Arrays.read 0 (snd (Arrays.sort by_completed 0 st)) = [dog; flipped milk].
Proof. reflexivity. Qed.

(** C4: the list [render] shows has the tasks of the canonical list, each as
    often; the tasks not completed come first and the completed ones after,
    each group in canonical order; and [this._list] is as it was. *)
Theorem render_shows_stable_partition (p : Page) :
  let l := _list (this p) in
  let shown := fst (render p) in
  Permutation shown l
  /\ shown = List.filter (fun item => negb (completed item)) l ++ List.filter completed l
  /\ (exists todo finished,
        shown = todo ++ finished
        /\ Forall (fun item => completed item = false) todo
        /\ Forall (fun item => completed item = true) finished)
  /\ _list (this (snd (render p))) = l
  /\ snd (render p) = p.
Proof.
  cbn zeta.
  assert (fst (render p) = sorted by_completed (_list (this p))) as -> by reflexivity.
  rewrite sorted_by_completed.
  split; [apply partition_by_completed_perm|]. split; [reflexivity|]. split.
  - eexists _, _. split; [reflexivity|].
    split; apply List.Forall_forall; intros item Hin;
      apply filter_In in Hin as [_ Hin]; [|done].
    by apply negb_true_iff in Hin.
  - split; [reflexivity|]. by destruct p as [[l v t] w].
Qed.

(** ** The debounced toggle *)

Lemma content_handleChecked i p q :
  content p = content q ->
  content (_handleCheckedTodo i p) = content (_handleCheckedTodo i q).
Proof.
  unfold content, _handleCheckedTodo. simpl. intros H. injection H as -> -> -> ->.
  reflexivity.
Qed.

Lemma content_list p q : content p = content q -> _list (this p) = _list (this q).
Proof. unfold content. intros H. by injection H. Qed.

Lemma content_debounced i p : content (debouncedCheckTodo i p) = content p.
Proof.
  unfold content, debouncedCheckTodo, debounce. simpl.
  by destruct (timeout (this p)).
Qed.

Lemma armed_only_timer s i p : armed s i p -> only_debounce_timer p.
Proof. intros (h & Ht & Htm). right. eexists. split; [exact Htm|]. exact Ht. Qed.

(** A request clears the pending timer and arms a new one for 300 ms. *)
Lemma debounced_arms i p :
  only_debounce_timer p -> armed wait_ms i (debouncedCheckTodo i p).
Proof.
  intros Honly. unfold armed, debouncedCheckTodo, debounce, setTimeout. simpl.
  eexists. split; [reflexivity|].
  destruct Honly as [Hnone | (tm & Hone & Hhandle)].
  - destruct (timeout (this p)); simpl; rewrite Hnone; reflexivity.
  - rewrite Hhandle. simpl. rewrite Hone. simpl. rewrite Nat.eqb_refl. reflexivity.
Qed.

Lemma tick_armed_quiet s i p :
  armed s i p -> 2 <= s ->
  armed (s - 1) i (tick p) /\ content (tick p) = content p.
Proof.
  intros (h & Ht & Htm) Hs. unfold tick, run_due. simpl. rewrite Htm. simpl.
  unfold is_due. simpl.
  destruct (Nat.leb_spec (now (window p) + s) (S (now (window p)))); [lia|].
  simpl. split; [|reflexivity].
  exists h. split; [exact Ht|]. simpl. do 2 f_equal. lia.
Qed.

Lemma tick_armed_fires i p :
  armed 1 i p ->
  content (tick p) = content (_handleCheckedTodo i p) /\ timers (window (tick p)) = [].
Proof.
  intros (h & Ht & Htm). unfold tick, run_due. simpl. rewrite Htm. simpl.
  unfold is_due. simpl.
  destruct (Nat.leb_spec (now (window p) + 1) (S (now (window p)))); [|lia].
  simpl. split; reflexivity.
Qed.

Lemma tick_idle p :
  timers (window p) = [] ->
  content (tick p) = content p /\ timers (window (tick p)) = [].
Proof.
  intros Hnone. unfold tick, run_due. simpl. rewrite Hnone. simpl. split; reflexivity.
Qed.

Lemma elapse_idle ms : forall p,
  timers (window p) = [] ->
  content (elapse ms p) = content p /\ timers (window (elapse ms p)) = [].
Proof.
  induction ms as [|ms IH]; intros p Hnone; [done|]. simpl.
  destruct (tick_idle p Hnone) as [Hc Ht].
  destruct (IH (tick p) Ht) as [Hc' Ht']. split; [congruence|done].
Qed.

(** Before the timer is due nothing happens. *)
Lemma elapse_armed_quiet g : forall s i p,
  armed s i p -> g < s ->
  armed (s - g) i (elapse g p) /\ content (elapse g p) = content p.
Proof.
  induction g as [|g IH]; intros s i p Harmed Hg; simpl.
  - by rewrite Nat.sub_0_r.
  - destruct (tick_armed_quiet s i p Harmed) as [Ha Hc]; [lia|].
    destruct (IH (s - 1) i (tick p) Ha) as [Ha' Hc']; [lia|].
    replace (s - S g) with (s - 1 - g) by lia. split; [done|congruence].
Qed.

(** Once the time is up the timer fires, once. *)
Lemma elapse_armed_fires d : forall s i p,
  armed s i p -> 1 <= s <= d ->
  content (elapse d p) = content (_handleCheckedTodo i p)
  /\ timers (window (elapse d p)) = [].
Proof.
  induction d as [|d IH]; intros s i p Harmed Hs; [lia|]. simpl.
  destruct (decide (s = 1)) as [->|Hne].
  - destruct (tick_armed_fires i p Harmed) as [Hc Ht].
    destruct (elapse_idle d (tick p) Ht) as [Hc' Ht']. split; [congruence|done].
  - destruct (tick_armed_quiet s i p Harmed) as [Ha Hc]; [lia|].
    destruct (IH (s - 1) i (tick p) Ha) as [Hc' Ht']; [lia|].
    split; [|done]. rewrite Hc'. by apply content_handleChecked.
Qed.

Lemma run_app p es1 es2 : run p (es1 ++ es2) = run (run p es1) es2.
Proof. apply fold_left_app. Qed.

(** During a burst the timer is re-armed by every request and never fires. *)
Lemma run_burst more : forall i p,
  armed wait_ms i p ->
  Forall (fun gi => fst gi < wait_ms) more ->
  armed wait_ms (last_id i more) (run p (burst more))
  /\ content (run p (burst more)) = content p.
Proof.
  induction more as [|[g j] more IH]; intros i p Harmed Hgaps; [done|].
  apply Forall_cons_1 in Hgaps as [Hg Hgaps]. simpl in Hg.
  change (run p (burst ((g, j) :: more)))
    with (run (debouncedCheckTodo j (elapse g p)) (burst more)).
  destruct (elapse_armed_quiet g wait_ms i p Harmed Hg) as [Ha Hc].
  apply armed_only_timer, (debounced_arms j) in Ha.
  destruct (IH j _ Ha Hgaps) as [Ha' Hc']. split; [done|].
  rewrite Hc', content_debounced. exact Hc.
Qed.

(** A burst settles: nothing changes while it lasts, and once the last
    request is 300 ms old its toggle has run and no timer is pending. *)
Lemma debounce_settles (p : Page) (first : jsstring) (more : list (nat * jsstring)) (d : nat) :
  only_debounce_timer p ->
  Forall (fun gi => fst gi < wait_ms) more ->
  wait_ms <= d ->
  content (run p (Change first :: burst more)) = content p
  /\ content (run p (Change first :: burst more ++ [Wait d]))
     = content (_handleCheckedTodo (last_id first more) p)
  /\ timers (window (run p (Change first :: burst more ++ [Wait d]))) = [].
Proof.
  intros Honly Hgaps Hd.
  pose proof (debounced_arms first p Honly) as Harmed.
  destruct (run_burst more first _ Harmed Hgaps) as [Ha Hc].
  rewrite content_debounced in Hc.
  rewrite app_comm_cons, run_app.
  change (run ?q [Wait d]) with (elapse d q).
  change (run (debouncedCheckTodo first p) (burst more))
    with (run p (Change first :: burst more)) in Ha, Hc.
  destruct (elapse_armed_fires d wait_ms _ _ Ha) as [Hfire Hnone];
    [unfold wait_ms in *; lia|].
  split; [exact Hc|]. split; [|exact Hnone].
  rewrite Hfire. by apply content_handleChecked.
Qed.

(** C6: of a burst of toggle requests, each less than 300 ms after the one
    before, none is applied while the burst lasts; 300 ms after the last
    request the toggle of the last requested id is applied and saved, once,
    and no timer is left.  Two requests for the same id 10 ms apart give
    one flip. *)
Theorem debounce_applies_last_request_once
    (p : Page) (first : jsstring) (more : list (nat * jsstring)) (d : nat) :
  only_debounce_timer p ->
  Forall (fun gi => fst gi < wait_ms) more ->
  wait_ms <= d ->
  let during := run p (Change first :: burst more) in
  let after := run p (Change first :: burst more ++ [Wait d]) in
  let applied := _handleCheckedTodo (last_id first more) p in
  content during = content p
  /\ _list (this after) = List.map (toggle_item (last_id first more)) (_list (this p))
  /\ localStorage (window after) = localStorage (window applied)
  /\ getItem storage_key (window after)
     = Some (JSON.stringify (list_to_json (_list (this after))))
  /\ timers (window after) = []
  /\ (forall later, content (run after [Wait later]) = content after).
Proof.
  intros Honly Hgaps Hd during after applied.
  destruct (debounce_settles p first more d Honly Hgaps Hd) as (Hc & Hcontent & Hnone).
  fold during in Hc. fold after in Hcontent, Hnone. fold applied in Hcontent.
  unfold content in Hcontent. injection Hcontent as Hlist Hinput Hstore Hcount.
  split; [exact Hc|]. split; [exact Hlist|]. split; [exact Hstore|].
  split; [|split; [exact Hnone|]].
  - unfold getItem. rewrite Hstore, Hlist. apply getItem_save.
  - intros later. apply (elapse_idle later after Hnone).
Qed.

Lemma debounce_applies_last_request_once_witness :
  _list (this (run two_tasks
                 [Change (demo_uuid 0); Wait 10; Change (demo_uuid 0); Wait 300]))
  = [flipped milk; dog]
  /\ _list (this (run two_tasks [Change (demo_uuid 0); Wait 10; Change (demo_uuid 0)]))
     = [milk; dog].
Proof.
  destruct (debounce_applies_last_request_once
              two_tasks (demo_uuid 0) [(10, demo_uuid 0)] 300)
    as (Hduring & Hlist & _).
  - left. reflexivity.
  - constructor; [|constructor]. unfold wait_ms. simpl. lia.
  - unfold wait_ms. lia.
  - split.
    + rewrite two_tasks_list in Hlist. exact Hlist.
    + apply content_list in Hduring. rewrite two_tasks_list in Hduring. exact Hduring.
Defined.

(** A request for one task followed within the window by a request for
    another: only the second is applied. *)
Example debounce_drops_first_of_two_ids :
  _list (this (run two_tasks
                 [Change (demo_uuid 0); Wait 299; Change (demo_uuid 1); Wait 300]))
  = [milk; flipped dog].
Proof. vm_compute. reflexivity. Qed.

(** With the window elapsed between them, both requests are applied. *)
Example toggles_apart_both_apply :
  _list (this (run two_tasks
                 [Change (demo_uuid 0); Wait 300; Change (demo_uuid 1); Wait 300]))
  = [flipped milk; flipped dog].
Proof. vm_compute. reflexivity. Qed.

(** ** Toggling twice *)

(** C9: toggling the same id twice gives back the list, and the component,
    it started from, with that list in the storage; so do two requests for
    the same id, each followed by the 300 ms of the debounce window. *)
Theorem toggle_twice_restores (i : jsstring) (p : Page) :
  let p2 := _handleCheckedTodo i (_handleCheckedTodo i p) in
  _list (this p2) = _list (this p)
  /\ this p2 = this p
  /\ window p2 = save (_list (this p)) (window p)
  /\ (only_debounce_timer p ->
      forall d1 d2, wait_ms <= d1 -> wait_ms <= d2 ->
      _list (this (run p [Change i; Wait d1; Change i; Wait d2])) = _list (this p)).
Proof.
  cbn zeta. rewrite handleChecked_twice. cbn [this window].
  split; [reflexivity|]. split; [reflexivity|]. split; [reflexivity|].
  intros Honly d1 d2 Hd1 Hd2.
  destruct (debounce_settles p i [] d1 Honly (Forall_nil_2 _) Hd1) as (_ & Hc1 & Hnone1).
  cbn [burst last_id app] in Hc1, Hnone1.
  change (run p [Change i; Wait d1; Change i; Wait d2])
    with (run (run p [Change i; Wait d1]) [Change i; Wait d2]).
  destruct (debounce_settles (run p [Change i; Wait d1]) i [] d2
              (or_introl Hnone1) (Forall_nil_2 _) Hd2) as (_ & Hc2 & _).
  cbn [burst last_id app] in Hc2.
  apply content_list in Hc2. rewrite Hc2.
  rewrite (content_list _ _ (content_handleChecked i _ _ Hc1)).
  by rewrite handleChecked_twice.
Qed.

Lemma toggle_twice_restores_witness :
  _list (this (run two_tasks
                 [Change (demo_uuid 0); Wait 300; Change (demo_uuid 0); Wait 300]))
  = [milk; dog].
Proof.
  destruct (toggle_twice_restores (demo_uuid 0) two_tasks) as (_ & _ & _ & Hrun).
  rewrite <- two_tasks_list. apply Hrun.
  - left. reflexivity.
  - unfold wait_ms. lia.
  - unfold wait_ms. lia.
Defined.

(** ** The ids stay distinct *)

Lemma well_keyed_keying p q : keying p = keying q -> well_keyed p -> well_keyed q.
Proof.
  unfold keying, well_keyed, ids_drawn, never_repeats. intros H.
  injection H as -> -> ->. done.
Qed.

Lemma map_id_toggle i l : List.map id (List.map (toggle_item i) l) = List.map id l.
Proof.
  rewrite List.map_map. apply List.map_ext. intros item.
  unfold toggle_item. by destruct (decide (id item = i)).
Qed.

Lemma well_keyed_handleChecked i p : well_keyed p -> well_keyed (_handleCheckedTodo i p).
Proof.
  intros (Hgen & Hdrawn & Hnodup). unfold well_keyed, ids_drawn, _handleCheckedTodo.
  simpl. split; [exact Hgen|]. split.
  - apply List.Forall_forall. intros item Hin.
    apply in_map_iff in Hin as (item0 & <- & Hin).
    unfold ids_drawn in Hdrawn. rewrite List.Forall_forall in Hdrawn.
    destruct (Hdrawn item0 Hin) as (k & Hk & Hid). exists k. split; [done|].
    unfold toggle_item. by destruct (decide (id item0 = i)).
  - by rewrite map_id_toggle.
Qed.

Lemma NoDup_map_filter {A B} (f : A -> B) (keep : A -> bool) l :
  NoDup (List.map f l) -> NoDup (List.map f (List.filter keep l)).
Proof.
  induction l as [|x l IH]; intros Hnodup; [done|]. simpl in *.
  apply NoDup_cons in Hnodup as [Hx Hl]. destruct (keep x); [|by apply IH].
  simpl. apply NoDup_cons. split; [|by apply IH].
  rewrite list_elem_of_In, in_map_iff. intros (y & Hy & Hin).
  apply Hx. rewrite list_elem_of_In, in_map_iff. exists y.
  apply filter_In in Hin as [Hin _]. done.
Qed.

Lemma well_keyed_handleDelete i p : well_keyed p -> well_keyed (_handleDeleteTodo i p).
Proof.
  intros (Hgen & Hdrawn & Hnodup). unfold well_keyed, ids_drawn, _handleDeleteTodo.
  simpl. split; [exact Hgen|]. split.
  - apply List.Forall_forall. intros item Hin. apply filter_In in Hin as [Hin _].
    unfold ids_drawn in Hdrawn. rewrite List.Forall_forall in Hdrawn. by apply Hdrawn.
  - by apply NoDup_map_filter.
Qed.

Lemma well_keyed_handleAdd p : well_keyed p -> well_keyed (_handleAddTodo p).
Proof.
  intros (Hgen & Hdrawn & Hnodup). unfold _handleAddTodo.
  destruct (_todoInput (this p)) as [|c v]; [done|].
  unfold well_keyed, ids_drawn. simpl.
  unfold ids_drawn in Hdrawn. rewrite List.Forall_forall in Hdrawn.
  split; [exact Hgen|]. split.
  - apply List.Forall_forall. intros item Hin. apply in_app_iff in Hin as [Hin|Hin].
    + destruct (Hdrawn item Hin) as (k & Hk & Hid). exists k. split; [lia|done].
    + destruct Hin as [<-|[]]. exists (uuid_count (window p)). split; [lia|done].
  - rewrite List.map_app. simpl. apply NoDup_app. split; [done|]. split.
    + intros x Hx Hnew. apply list_elem_of_In in Hx, Hnew.
      destruct Hnew as [<-|[]]. apply in_map_iff in Hx as (item & Hid & Hin).
      destruct (Hdrawn item Hin) as (k & Hk & Hidk).
      rewrite Hidk in Hid. apply Hgen in Hid. lia.
    + apply NoDup_singleton.
Qed.

Lemma keying_debounced i p : keying (debouncedCheckTodo i p) = keying p.
Proof. unfold keying, debouncedCheckTodo, debounce. simpl. by destruct (timeout (this p)). Qed.

Lemma well_keyed_fold fired : forall p,
  well_keyed p ->
  well_keyed (fold_left (fun q tm => invoke (callback tm) q) fired p).
Proof.
  induction fired as [|tm fired IH]; intros p Hp; [done|].
  simpl. apply IH. destruct (callback tm) as [i]. by apply well_keyed_handleChecked.
Qed.

Lemma well_keyed_tick p : well_keyed p -> well_keyed (tick p).
Proof.
  intros Hp. unfold tick, run_due. apply well_keyed_fold.
  revert Hp. by apply well_keyed_keying.
Qed.

Lemma well_keyed_elapse ms : forall p, well_keyed p -> well_keyed (elapse ms p).
Proof.
  induction ms as [|ms IH]; intros p Hp; [done|]. simpl. by apply IH, well_keyed_tick.
Qed.

Lemma well_keyed_step p e : well_keyed p -> well_keyed (step p e).
Proof.
  intros Hp. destruct e as [v| |i|i|ms]; simpl.
  - revert Hp. by apply well_keyed_keying.
  - by apply well_keyed_handleAdd.
  - revert Hp. apply well_keyed_keying. symmetry. apply keying_debounced.
  - by apply well_keyed_handleDelete.
  - by apply well_keyed_elapse.
Qed.

(** Whatever the user does, the ids of the list stay distinct. *)
Lemma well_keyed_run es : forall p, well_keyed p -> well_keyed (run p es).
Proof.
  induction es as [|e es IH]; intros p Hp; [done|].
  simpl. by apply IH, well_keyed_step.
Qed.

Lemma map_with_id_keyed vs : forall w l w',
  never_repeats w ->
  map_with_id vs w = (Returns l, w') ->
  uuid_supply w' = uuid_supply w
  /\ uuid_count w' = uuid_count w + length vs
  /\ List.map id l = List.map (uuid_supply w) (seq (uuid_count w) (length vs)).
Proof.
  induction vs as [|v vs IH]; intros w l w' Hgen Hmap; simpl in Hmap.
  - injection Hmap as <- <-. simpl. by rewrite Nat.add_0_r.
  - destruct (map_with_id vs (with_uuid_count (S (uuid_count w)) w))
      as [rest w2] eqn:Hrest.
    destruct (as_stored_item v) as [[t c]|]; [|by destruct rest].
    destruct rest as [items| |]; try discriminate.
    injection Hmap as <- <-.
    destruct (IH (with_uuid_count (S (uuid_count w)) w) _ _ Hgen Hrest)
      as (Hs & Hc & Hids).
    simpl in *. split; [done|]. split; [lia|]. by rewrite Hids.
Qed.

(** The list the component starts with has distinct ids. *)
Lemma well_keyed_construct w p :
  never_repeats w -> construct w = Returns p -> well_keyed p.
Proof.
  intros Hgen. unfold construct, load.
  destruct (JSON.parse _) as [[| | | |vs|]|]; try discriminate.
  destruct (map_with_id vs w) as [[l| |] w'] eqn:Hmap; try discriminate.
  intros H. injection H as <-.
  destruct (map_with_id_keyed vs w l w' Hgen Hmap) as (Hs & Hc & Hids).
  unfold well_keyed, ids_drawn, never_repeats. simpl. rewrite Hs, Hc.
  split; [exact Hgen|]. split.
  - apply List.Forall_forall. intros item Hin.
    assert (In (id item) (List.map id l)) as Hid by (by apply in_map).
    rewrite Hids in Hid. apply in_map_iff in Hid as (k & Hk & Hseq).
    apply in_seq in Hseq. exists k. split; [lia|done].
  - rewrite Hids. apply (@NoDup_fmap_2 _ _ (uuid_supply w) Hgen), NoDup_seq.
Qed.

(** ** At most the timer of the closure is pending *)

Lemma only_timer_timing p q : timing p = timing q -> only_debounce_timer p -> only_debounce_timer q.
Proof. unfold timing, only_debounce_timer. intros H. injection H as -> ->. done. Qed.

Lemma timing_handleChecked i p : timing (_handleCheckedTodo i p) = timing p.
Proof. reflexivity. Qed.

Lemma timing_handleDelete i p : timing (_handleDeleteTodo i p) = timing p.
Proof. reflexivity. Qed.

Lemma timing_handleAdd p : timing (_handleAddTodo p) = timing p.
Proof. unfold _handleAddTodo. by destruct (_todoInput (this p)). Qed.

Lemma timing_fold fired : forall p,
  timing (fold_left (fun q tm => invoke (callback tm) q) fired p) = timing p.
Proof.
  induction fired as [|tm fired IH]; intros p; [done|].
  simpl. rewrite IH. by destruct (callback tm).
Qed.

Lemma only_timer_tick p : only_debounce_timer p -> only_debounce_timer (tick p).
Proof.
  intros Honly. unfold tick, run_due.
  apply (only_timer_timing _ _ (eq_sym (timing_fold _ _))).
  unfold only_debounce_timer. simpl.
  destruct Honly as [-> | (tm & -> & Hh)]; [by left|]. simpl.
  destruct (is_due _ tm); simpl; [by left|]. right. by exists tm.
Qed.

Lemma only_timer_elapse ms : forall p,
  only_debounce_timer p -> only_debounce_timer (elapse ms p).
Proof.
  induction ms as [|ms IH]; intros p Hp; [done|]. simpl. by apply IH, only_timer_tick.
Qed.

Lemma only_timer_step p e : only_debounce_timer p -> only_debounce_timer (step p e).
Proof.
  intros Hp. destruct e as [v| |i|i|ms]; simpl.
  - exact Hp.
  - revert Hp. apply only_timer_timing. symmetry. apply timing_handleAdd.
  - by eapply armed_only_timer, debounced_arms.
  - exact Hp.
  - by apply only_timer_elapse.
Qed.

(** Whatever the user does, no timer but the one of the closure is pending. *)
Lemma only_timer_run es : forall p,
  only_debounce_timer p -> only_debounce_timer (run p es).
Proof.
  induction es as [|e es IH]; intros p Hp; [done|].
  simpl. by apply IH, only_timer_step.
Qed.

Lemma timers_map_with_id vs : forall w,
  timers (snd (map_with_id vs w)) = timers w.
Proof.
  induction vs as [|v vs IH]; intros w; [done|]. simpl.
  specialize (IH (with_uuid_count (S (uuid_count w)) w)).
  destruct (map_with_id vs _) as [rest w2]. simpl in *. exact IH.
Qed.

Lemma only_timer_construct w p :
  timers w = [] -> construct w = Returns p -> only_debounce_timer p.
Proof.
  intros Hnone. unfold construct, load.
  destruct (JSON.parse _) as [[| | | |vs|]|]; try discriminate.
  pose proof (timers_map_with_id vs w) as Ht.
  destruct (map_with_id vs w) as [[l| |] w']; try discriminate.
  intros H. injection H as <-. left. simpl in *. congruence.
Qed.

(** ** Scenarios *)

(** Adding with an empty text field in between leaves two tasks. *)
Example scenario_empty_title_rejected :
  List.map title
    (_list (this (run empty_page
                    [Type_text (js "A"); Click_add; Click_add; Type_text (js "B"); Click_add])))
  = [js "A"; js "B"].
Proof. reflexivity. Qed.

(** Two tasks, the first then toggled: it is shown last. *)
Example scenario_completed_shown_last :
  fst (render (run two_tasks [Change (demo_uuid 0); Wait 300])) = [dog; flipped milk].
Proof. vm_compute. reflexivity. Qed.

(** A page that is opened again on what this one saved gets the same
    tasks under new ids. *)
Example scenario_reload :
  construct (window two_tasks)
  = Returns {| this := {| _list := with_ids demo_uuid 2 [milk; dog];
                          _todoInput := []; timeout := None |};
               window := with_uuid_count 4 (window two_tasks) |}.
Proof. vm_compute. reflexivity. Qed.

(** * Further properties of the handlers *)

Lemma handleAdd_list (p : Page) :
  _todoInput (this p) <> [] ->
  _list (this (_handleAddTodo p))
  = _list (this p)
    ++ [{| title := _todoInput (this p); completed := false;
           id := uuid_supply (window p) (uuid_count (window p)) |}].
Proof.
  intros Hne. unfold _handleAddTodo.
  destruct (_todoInput (this p)) as [|c s]; [done|]. reflexivity.
Qed.

(** ** Clicking twice *)

(** X1: a second click on Add right after the first adds nothing: the first
    click cleared the text field (or found it empty), so the second
    returns at the guard. *)
Theorem add_twice_adds_once (p : Page) :
  _handleAddTodo (_handleAddTodo p) = _handleAddTodo p.
Proof.
  destruct p as [[l v t] w]. destruct v as [|c v]; reflexivity.
Qed.

Lemma filter_twice (i : jsstring) (l : list TodoItem) :
  List.filter (fun item => negb (bool_decide (id item = i)))
    (List.filter (fun item => negb (bool_decide (id item = i))) l)
  = List.filter (fun item => negb (bool_decide (id item = i))) l.
Proof.
  apply filter_keeps_all. intros item Hin. apply filter_In in Hin as [_ Hin].
  by apply negb_true_iff, bool_decide_eq_false in Hin.
Qed.

(** X2: deleting the same id a second time changes nothing, neither in the
    list nor in the storage. *)
Theorem delete_twice_deletes_once (i : jsstring) (p : Page) :
  _handleDeleteTodo i (_handleDeleteTodo i p) = _handleDeleteTodo i p.
Proof.
  unfold _handleDeleteTodo. cbn [this window _list with_list].
  rewrite filter_twice, save_save. reflexivity.
Qed.

(** ** The order of toggles and deletes *)

Lemma toggle_item_id i item : id (toggle_item i item) = id item.
Proof. unfold toggle_item. by destruct (decide (id item = i)). Qed.

Lemma toggle_item_comm i j item :
  toggle_item i (toggle_item j item) = toggle_item j (toggle_item i item).
Proof.
  destruct (decide (id item = j)) as [Hj|Hj], (decide (id item = i)) as [Hi|Hi];
    repeat first
      [ rewrite toggle_item_match by (rewrite ?toggle_item_id; done)
      | rewrite toggle_item_other by (rewrite ?toggle_item_id; done) ];
    reflexivity.
Qed.

Lemma filter_map_toggle i j l :
  List.filter (fun item => negb (bool_decide (id item = i))) (List.map (toggle_item j) l)
  = List.map (toggle_item j) (List.filter (fun item => negb (bool_decide (id item = i))) l).
Proof.
  induction l as [|x l IH]; [done|]. simpl. rewrite toggle_item_id, IH.
  by destruct (bool_decide (id x = i)).
Qed.

Lemma filter_filter_comm (i j : jsstring) (l : list TodoItem) :
  List.filter (fun item => negb (bool_decide (id item = i)))
    (List.filter (fun item => negb (bool_decide (id item = j))) l)
  = List.filter (fun item => negb (bool_decide (id item = j)))
      (List.filter (fun item => negb (bool_decide (id item = i))) l).
Proof.
  induction l as [|x l IH]; [done|]. simpl.
  destruct (bool_decide (id x = j)) eqn:Hj, (bool_decide (id x = i)) eqn:Hi; simpl;
    rewrite ?Hi, ?Hj; simpl; by rewrite IH.
Qed.

(** X3: toggles and deletes can be done in either order, whatever the two
    ids are: the component and the storage end up the same. *)
Theorem toggle_and_delete_commute (i j : jsstring) (p : Page) :
  _handleDeleteTodo i (_handleCheckedTodo j p) = _handleCheckedTodo j (_handleDeleteTodo i p)
  /\ _handleCheckedTodo i (_handleCheckedTodo j p) = _handleCheckedTodo j (_handleCheckedTodo i p)
  /\ _handleDeleteTodo i (_handleDeleteTodo j p) = _handleDeleteTodo j (_handleDeleteTodo i p).
Proof.
  unfold _handleDeleteTodo, _handleCheckedTodo. cbn [this window _list with_list].
  rewrite !save_save. split; [|split].
  - by rewrite filter_map_toggle.
  - rewrite !List.map_map.
    rewrite (List.map_ext _ _ (toggle_item_comm i j)). reflexivity.
  - by rewrite filter_filter_comm.
Qed.

(** ** Adding *)

Lemma add_typed_title t p :
  _list (this (_handleAddTodo {| this := with_todoInput t (this p); window := window p |}))
  = _list (this p)
    ++ (if nonempty t
        then [{| title := t; completed := false;
                 id := uuid_supply (window p) (uuid_count (window p)) |}]
        else []).
Proof.
  destruct t as [|c t]; simpl; [by rewrite app_nil_r|reflexivity].
Qed.

(** X4: typing titles and clicking Add after each appends one task, not
    completed, for every title that is not empty, in the order typed; the
    tasks that were in the list stay in front, unchanged. *)
Theorem add_all_appends_nonempty_titles (ts : list jsstring) (p : Page) :
  exists added,
    _list (this (run p (add_all ts))) = _list (this p) ++ added
    /\ List.map title added = List.filter nonempty ts
    /\ Forall (fun item => completed item = false) added
    /\ length (_list (this (run p (add_all ts))))
       = length (_list (this p)) + length (List.filter nonempty ts).
Proof.
  assert (exists added,
            _list (this (run p (add_all ts))) = _list (this p) ++ added
            /\ List.map title added = List.filter nonempty ts
            /\ Forall (fun item => completed item = false) added)
    as (added & Hlist & Htitles & Hflags).
  { revert p. induction ts as [|t ts IH]; intros p.
    - exists []. simpl. by rewrite app_nil_r.
    - change (run p (add_all (t :: ts)))
        with (run (_handleAddTodo {| this := with_todoInput t (this p);
                                     window := window p |}) (add_all ts)).
      destruct (IH (_handleAddTodo {| this := with_todoInput t (this p);
                                      window := window p |}))
        as (added & Hlist & Htitles & Hflags).
      rewrite add_typed_title in Hlist. rewrite Hlist, <- app_assoc.
      eexists. split; [reflexivity|]. simpl. destruct (nonempty t); simpl.
      + split; [by rewrite Htitles|]. by constructor.
      + by split. }
  exists added. split; [exact Hlist|]. split; [exact Htitles|]. split; [exact Hflags|].
  by rewrite Hlist, length_app, <- Htitles, length_map.
Qed.

(** X5: a task that was just added is shown after the tasks not completed
    and before the completed ones. *)
Theorem added_task_shown_between (p : Page) :
  _todoInput (this p) <> [] ->
  let task := {| title := _todoInput (this p); completed := false;
                 id := uuid_supply (window p) (uuid_count (window p)) |} in
  fst (render (_handleAddTodo p))
  = List.filter (fun item => negb (completed item)) (_list (this p))
    ++ task :: List.filter completed (_list (this p)).
Proof.
  intros Hne task.
  assert (fst (render (_handleAddTodo p))
          = sorted by_completed (_list (this (_handleAddTodo p)))) as -> by reflexivity.
  rewrite (handleAdd_list p Hne).
  rewrite sorted_by_completed, !List.filter_app. simpl.
  by rewrite app_nil_r, <- app_assoc.
Qed.

Lemma added_task_shown_between_witness :
  fst (render (_handleAddTodo
                 (run two_tasks [Change (demo_uuid 0); Wait 300; Type_text (js "Feed cat")])))
  = [dog; {| title := js "Feed cat"; completed := false; id := demo_uuid 2 |};
     flipped milk].
Proof.
  apply (added_task_shown_between
           (run two_tasks [Change (demo_uuid 0); Wait 300; Type_text (js "Feed cat")])).
  discriminate.
Defined.

(** X6: adding a task and then deleting the id it was given gives back the
    list, when the ids of the list were drawn from a generator that never
    repeats. *)
Theorem add_then_delete_restores (p : Page) :
  _todoInput (this p) <> [] ->
  never_repeats (window p) ->
  ids_drawn p ->
  _list (this (_handleDeleteTodo (uuid_supply (window p) (uuid_count (window p)))
                 (_handleAddTodo p)))
  = _list (this p).
Proof.
  intros Hne Hgen Hdrawn. unfold _handleDeleteTodo. cbn [this _list with_list].
  rewrite (handleAdd_list p Hne), List.filter_app. simpl.
  rewrite bool_decide_eq_true_2 by done. simpl. rewrite app_nil_r.
  apply filter_keeps_all. intros item Hin Hid.
  unfold ids_drawn in Hdrawn. rewrite List.Forall_forall in Hdrawn.
  destruct (Hdrawn item Hin) as (k & Hk & Hidk).
  rewrite Hidk in Hid. apply Hgen in Hid. lia.
Qed.

Lemma add_then_delete_restores_witness :
  _list (this (_handleDeleteTodo (demo_uuid 2)
                 (_handleAddTodo (run two_tasks [Type_text (js "Feed cat")]))))
  = [milk; dog].
Proof.
  apply (add_then_delete_restores (run two_tasks [Type_text (js "Feed cat")])).
  - discriminate.
  - by apply demo_uuid_never_repeats.
  - apply List.Forall_cons; [exists 0; split; [simpl; lia|reflexivity]|].
    apply List.Forall_cons; [exists 1; split; [simpl; lia|reflexivity]|].
    apply List.Forall_nil.
Defined.

(** * Further properties of sequences of events *)

(** ** Invariants from the start of the component *)

(** X7: whatever is stored and whatever the user does, the ids of the list
    are distinct, as long as [crypto.randomUUID] never repeats: [load]
    gives every record an id of its own, also records stored with equal
    ids, and no handler copies an id. *)
Theorem ids_stay_distinct (w : Window) (p : Page) (es : list event) :
  never_repeats w ->
  construct w = Returns p ->
  NoDup (List.map id (_list (this (run p es)))).
Proof.
  intros Hgen Hp.
  by apply (well_keyed_run es p (well_keyed_construct w p Hgen Hp)).
Qed.

Lemma ids_stay_distinct_witness :
  NoDup (List.map id
           (_list (this (run empty_page
                           (add_all [js "a"; js "b"; js "c"]
                            ++ [Change (demo_uuid 1); Click_delete (demo_uuid 0);
                                Wait 300]))))).
Proof.
  apply (ids_stay_distinct fresh_window).
  - by apply demo_uuid_never_repeats.
  - reflexivity.
Defined.

(** X8: when the browser has no timer pending at the start, the component
    never has more than one pending, whatever the user does. *)
Theorem at_most_one_timer_pending (w : Window) (p : Page) (es : list event) :
  timers w = [] ->
  construct w = Returns p ->
  length (timers (window (run p es))) <= 1.
Proof.
  intros Hnone Hp.
  destruct (only_timer_run es p (only_timer_construct w p Hnone Hp))
    as [-> | (tm & -> & _)]; simpl; lia.
Qed.

Lemma at_most_one_timer_pending_witness :
  length (timers (window (run empty_page
                            (add_all [js "a"; js "b"]
                             ++ [Change (demo_uuid 0); Wait 5; Change (demo_uuid 1)]))))
  <= 1.
Proof.
  apply (at_most_one_timer_pending fresh_window); reflexivity.
Defined.

(** ** What the storage holds *)

Lemma shown_tasks_with_ids supply n l :
  shown_tasks (with_ids supply n l) = shown_tasks l.
Proof. revert n. induction l; intros; simpl; f_equal; auto. Qed.

Lemma localStorage_map_with_id vs : forall w,
  localStorage (snd (map_with_id vs w)) = localStorage w.
Proof.
  induction vs as [|v vs IH]; intros w; [done|]. simpl.
  specialize (IH (with_uuid_count (S (uuid_count w)) w)).
  destruct (map_with_id vs _) as [rest w2]. simpl in *. exact IH.
Qed.

Lemma map_with_id_shown vs : forall w w' l,
  fst (map_with_id vs w) = Returns l ->
  exists l', fst (map_with_id vs w') = Returns l' /\ shown_tasks l' = shown_tasks l.
Proof.
  induction vs as [|v vs IH]; intros w w' l; simpl.
  - intros [= <-]. by exists [].
  - specialize (IH (with_uuid_count (S (uuid_count w)) w)
                   (with_uuid_count (S (uuid_count w')) w')).
    destruct (map_with_id vs (with_uuid_count (S (uuid_count w)) w)) as [rest w2].
    destruct (map_with_id vs (with_uuid_count (S (uuid_count w')) w')) as [rest' w2'].
    simpl in *. destruct (as_stored_item v) as [[t c]|]; [|done].
    destruct rest as [items| |]; try done. intros [= <-].
    destruct (IH items eq_refl) as (items' & -> & Hshown).
    eexists. split; [reflexivity|]. simpl. by rewrite Hshown.
Qed.

(** What [load] shows depends on the storage only. *)
Lemma load_shown_storage w w' l :
  localStorage w = localStorage w' ->
  fst (load w) = Returns l ->
  exists l', fst (load w') = Returns l' /\ shown_tasks l' = shown_tasks l.
Proof.
  unfold load, getItem. intros <-.
  destruct (JSON.parse _) as [[| | | |vs|]|]; try done.
  apply map_with_id_shown.
Qed.

Lemma reload_agrees_same p q :
  localStorage (window p) = localStorage (window q) ->
  _list (this p) = _list (this q) ->
  reload_agrees p -> reload_agrees q.
Proof.
  intros Hstore Hlist (l & Hl & Hshown).
  destruct (load_shown_storage _ _ l Hstore Hl) as (l' & Hl' & Hshown').
  exists l'. split; [exact Hl'|]. by rewrite Hshown', Hshown, Hlist.
Qed.

Lemma reload_agrees_saved e w :
  reload_agrees {| this := e; window := save (_list e) w |}.
Proof.
  unfold reload_agrees. simpl. rewrite load_save. simpl.
  eexists. split; [reflexivity|]. apply shown_tasks_with_ids.
Qed.

Lemma reload_agrees_handleChecked i p : reload_agrees (_handleCheckedTodo i p).
Proof. apply (reload_agrees_saved (with_list _ (this p))). Qed.

Lemma reload_agrees_handleDelete i p : reload_agrees (_handleDeleteTodo i p).
Proof. apply (reload_agrees_saved (with_list _ (this p))). Qed.

Lemma reload_agrees_handleAdd p : reload_agrees p -> reload_agrees (_handleAddTodo p).
Proof.
  intros Hp. unfold _handleAddTodo. destruct (_todoInput (this p)) as [|c v]; [done|].
  apply (reload_agrees_saved (with_todoInput [] (with_list _ (this p)))).
Qed.

Lemma reload_agrees_fold fired : forall p,
  reload_agrees p ->
  reload_agrees (fold_left (fun q tm => invoke (callback tm) q) fired p).
Proof.
  induction fired as [|tm fired IH]; intros p Hp; [done|].
  simpl. apply IH. destruct (callback tm) as [i]. apply reload_agrees_handleChecked.
Qed.

Lemma reload_agrees_tick p : reload_agrees p -> reload_agrees (tick p).
Proof.
  intros Hp. unfold tick, run_due. apply reload_agrees_fold.
  revert Hp. by apply reload_agrees_same.
Qed.

Lemma reload_agrees_elapse ms : forall p, reload_agrees p -> reload_agrees (elapse ms p).
Proof.
  induction ms as [|ms IH]; intros p Hp; [done|]. simpl. by apply IH, reload_agrees_tick.
Qed.

Lemma reload_agrees_step p e : reload_agrees p -> reload_agrees (step p e).
Proof.
  intros Hp. destruct e as [v| |i|i|ms]; simpl.
  - revert Hp. by apply reload_agrees_same.
  - by apply reload_agrees_handleAdd.
  - revert Hp. apply reload_agrees_same; [|done].
    unfold debouncedCheckTodo, debounce. simpl. by destruct (timeout (this p)).
  - apply reload_agrees_handleDelete.
  - by apply reload_agrees_elapse.
Qed.

Lemma reload_agrees_run es : forall p, reload_agrees p -> reload_agrees (run p es).
Proof.
  induction es as [|e es IH]; intros p Hp; [done|].
  simpl. by apply IH, reload_agrees_step.
Qed.

Lemma reload_agrees_construct w p : construct w = Returns p -> reload_agrees p.
Proof.
  unfold construct. destruct (load w) as [[l| |] w'] eqn:Hload; try done.
  intros [= <-]. unfold reload_agrees. simpl.
  apply (load_shown_storage w w' l).
  - replace w' with (snd (load w)) by (by rewrite Hload).
    unfold load. destruct (JSON.parse _) as [[| | | |vs|]|]; try done.
    symmetry. apply localStorage_map_with_id.
  - by rewrite Hload.
Qed.

(** X9: at any moment, opening the page again shows the tasks the page
    shows now: [load] of the storage returns (it throws nothing) a list
    with the same titles and the same completed flags in the same order. *)
Theorem reload_shows_the_same_tasks (w : Window) (p : Page) (es : list event) :
  construct w = Returns p ->
  exists q,
    construct (window (run p es)) = Returns q
    /\ shown_tasks (_list (this q)) = shown_tasks (_list (this (run p es))).
Proof.
  intros Hp.
  destruct (reload_agrees_run es p (reload_agrees_construct w p Hp)) as (l & Hl & Hshown).
  unfold construct. destruct (load (window (run p es))) as [o w']. simpl in Hl. subst o.
  eexists. split; [reflexivity|]. exact Hshown.
Qed.

Lemma reload_shows_the_same_tasks_witness :
  exists q,
    construct (window (run empty_page
                         (add_all [js "a"; js "b"] ++ [Change (demo_uuid 1); Wait 300])))
    = Returns q
    /\ shown_tasks (_list (this q)) = [(js "a", false); (js "b", true)].
Proof.
  destruct (reload_shows_the_same_tasks fresh_window empty_page
              (add_all [js "a"; js "b"] ++ [Change (demo_uuid 1); Wait 300]) eq_refl)
    as (q & Hq & Hshown).
  exists q. split; [exact Hq|]. rewrite Hshown. vm_compute. reflexivity.
Defined.

(** ** Edits while a toggle is pending *)











(** ** Requests that are 300 ms apart *)

Lemma content_toggle_each reqs : forall p q,
  content p = content q -> content (toggle_each reqs p) = content (toggle_each reqs q).
Proof.
  induction reqs as [|[i d] reqs IH]; intros p q Hc; [done|].
  apply IH. by apply content_handleChecked.
Qed.

(** X12: toggle requests that are each followed by at least 300 ms are all
    applied, one after the other in the order requested: the debounce drops
    none of them. *)
Theorem spaced_requests_all_apply (p : Page) (reqs : list (jsstring * nat)) :
  only_debounce_timer p ->
  Forall (fun r => wait_ms <= snd r) reqs ->
  content (run p (spaced reqs)) = content (toggle_each reqs p)
  /\ _list (this (run p (spaced reqs)))
     = fold_left (fun l r => List.map (toggle_item (fst r)) l) reqs (_list (this p)).
Proof.
  intros Honly Hreqs.
  assert (content (run p (spaced reqs)) = content (toggle_each reqs p)) as Hcontent.
  { revert p Honly. induction Hreqs as [|[i d] reqs Hd _ IH]; intros p Honly; [done|].
    simpl in Hd.
    destruct (debounce_settles p i [] d Honly (Forall_nil_2 _) Hd) as (_ & Hc & Hnone).
    cbn [burst last_id app] in Hc, Hnone.
    change (run p (spaced ((i, d) :: reqs)))
      with (run (run p [Change i; Wait d]) (spaced reqs)).
    rewrite (IH _ (or_introl Hnone)).
    change (toggle_each ((i, d) :: reqs) p)
      with (toggle_each reqs (_handleCheckedTodo i p)).
    by apply content_toggle_each. }
  split; [exact Hcontent|].
  apply content_list in Hcontent. rewrite Hcontent. clear.
  revert p. induction reqs as [|[i d] reqs IH]; intros p; [done|].
  apply (IH (_handleCheckedTodo i p)).
Qed.

Lemma spaced_requests_all_apply_witness :
  _list (this (run two_tasks
                 [Change (demo_uuid 0); Wait 300; Change (demo_uuid 1); Wait 450;
                  Change (demo_uuid 0); Wait 300]))
  = [milk; flipped dog].
Proof.
  destruct (spaced_requests_all_apply two_tasks
              [(demo_uuid 0, 300); (demo_uuid 1, 450); (demo_uuid 0, 300)])
    as [_ Hlist].
  - left. reflexivity.
  - unfold wait_ms.
    apply List.Forall_cons; [simpl; lia|].
    apply List.Forall_cons; [simpl; lia|].
    apply List.Forall_cons; [simpl; lia|].
    apply List.Forall_nil.
  - rewrite two_tasks_list in Hlist. exact Hlist.
Defined.

(** ** The order of the list *)

Lemma identities_toggle i l : identities (List.map (toggle_item i) l) = identities l.
Proof.
  unfold identities. rewrite List.map_map. apply List.map_ext. intros item.
  unfold toggle_item. by destruct (decide (id item = i)).
Qed.

Lemma identities_filter (keep : TodoItem -> bool) l :
  sublist (identities (List.filter keep l)) (identities l).
Proof.
  induction l as [|x l IH]; [constructor|]. simpl.
  destruct (keep x); simpl; by constructor.
Qed.

Lemma identities_fold fired : forall p,
  identities (_list (this (fold_left (fun q tm => invoke (callback tm) q) fired p)))
  = identities (_list (this p)).
Proof.
  induction fired as [|tm fired IH]; intros p; [done|].
  simpl. rewrite IH. destruct (callback tm) as [i]. apply identities_toggle.
Qed.

Lemma identities_elapse ms : forall p,
  identities (_list (this (elapse ms p))) = identities (_list (this p)).
Proof.
  induction ms as [|ms IH]; intros p; [done|].
  simpl. rewrite IH. unfold tick, run_due. by rewrite identities_fold.
Qed.

Lemma identities_step p e :
  is_add e = false ->
  sublist (identities (_list (this (step p e)))) (identities (_list (this p))).
Proof.
  intros He. destruct e as [v| |i|i|ms]; try discriminate; simpl.
  - done.
  - unfold debouncedCheckTodo, debounce. simpl. by destruct (timeout (this p)).
  - apply identities_filter.
  - by rewrite identities_elapse.
Qed.

(** X13: as long as nothing is added, the tasks of the list are tasks that
    were there before, with the id and the title they had and in the order
    they had: toggles and deletes, debounced or not, neither reorder the
    list nor change an id or a title. *)
Theorem tasks_keep_identity_and_order (p : Page) (es : list event) :
  forallb (fun e => negb (is_add e)) es = true ->
  sublist (identities (_list (this (run p es)))) (identities (_list (this p))).
Proof.
  revert p. induction es as [|e es IH]; intros p Hes; [done|].
  simpl in Hes. apply andb_true_iff in Hes as [He Hes]. apply negb_true_iff in He.
  simpl. etransitivity; [by apply IH|]. by apply identities_step.
Qed.

Lemma tasks_keep_identity_and_order_witness :
  sublist
    (identities (_list (this (run two_tasks
                                [Change (demo_uuid 1); Wait 120; Click_delete (demo_uuid 0);
                                 Wait 300]))))
    [(demo_uuid 0, js "Buy milk"); (demo_uuid 1, js "Walk dog")].
Proof.
  apply (tasks_keep_identity_and_order two_tasks
           [Change (demo_uuid 1); Wait 120; Click_delete (demo_uuid 0); Wait 300]).
  reflexivity.
Defined.
